(** * strapi-fragments-cli: a shallow embedding of [src/index.js]

    The command line tool asks a Strapi instance for the attribute schema of a
    component, resolves it into a list of GraphQL selections, derives two
    names from the component identifier, renders four texts and writes them
    below a target directory.  This file embeds the JavaScript of
    [src/index.js] function by function and proves the properties the
    specification states about it. *)

From Stdlib Require Import Ascii.
From stdpp Require Import base decidable option list strings pretty gmap sorting.

Set Warnings "-register-all".
Local Open Scope list_scope.
Local Open Scope stdpp_scope.

(** ** JavaScript strings

    A JavaScript string is modelled by a Rocq [string]; every character stands
    for one code unit.  The case conversions below are those of ASCII, which
    is the alphabet of component identifiers and of Strapi field names: on a
    code unit of ASCII they are the conversions of JavaScript, which follow
    Unicode elsewhere.  The properties that say what a conversion returns
    take the converted code units from ASCII. *)

Module Js.

Definition is_lower (c : ascii) : bool :=
  let n := nat_of_ascii c in (97 <=? n) && (n <=? 122).

Definition is_upper (c : ascii) : bool :=
  let n := nat_of_ascii c in (65 <=? n) && (n <=? 90).

(** [c.toUpperCase()] and [c.toLowerCase()] on a single code unit. *)
Definition toUpperCase (c : ascii) : ascii :=
  if is_lower c then ascii_of_nat (nat_of_ascii c - 32) else c.

Definition toLowerCase (c : ascii) : ascii :=
  if is_upper c then ascii_of_nat (nat_of_ascii c + 32) else c.

(** [s.split(sep)] for a separator that is one character out of a class:
    both [str.split('.')] and [str.split(/[-.]/)] are instances.  The result
    is never empty. *)
Fixpoint split (sep : ascii → bool) (s : string) : list string :=
  match s with
  | EmptyString => [EmptyString]
  | String c r =>
      if sep c then EmptyString :: split sep r
      else match split sep r with
           | h :: t => String c h :: t
           | [] => [String c EmptyString]
           end
  end.

Definition is_dot (c : ascii) : bool := bool_decide (c = "."%char).
Definition is_hyphen (c : ascii) : bool := bool_decide (c = "-"%char).
Definition is_slash (c : ascii) : bool := bool_decide (c = "/"%char).
(** The character class [[-.]]. *)
Definition is_hyphen_or_dot (c : ascii) : bool := is_hyphen c || is_dot c.

(** [l.join(sep)] on an array of strings. *)
Fixpoint join (sep : string) (l : list string) : string :=
  match l with
  | [] => ""
  | [x] => x
  | x :: r => x +:+ sep +:+ join sep r
  end.

(** [s.charAt(0).toUpperCase() + s.slice(1)] *)
Definition capitalize (s : string) : string :=
  match s with
  | EmptyString => ""
  | String c r => String (toUpperCase c) r
  end.

(** [s.charAt(0).toLowerCase() + s.slice(1)] *)
Definition lowerFirst (s : string) : string :=
  match s with
  | EmptyString => ""
  | String c r => String (toLowerCase c) r
  end.

(** [hay.startsWith(needle)] *)
Fixpoint startsWith (needle hay : string) : bool :=
  match needle, hay with
  | EmptyString, _ => true
  | String a n, String b h => bool_decide (a = b) && startsWith n h
  | String _ _, EmptyString => false
  end.

(** [hay.includes(needle)] *)
Fixpoint includes (hay needle : string) : bool :=
  startsWith needle hay ||
  match hay with
  | EmptyString => false
  | String _ h => includes h needle
  end.

(** The number of positions of [hay] at which [needle] occurs. *)
Fixpoint occurrences (needle hay : string) : nat :=
  (if startsWith needle hay then 1 else 0) +
  match hay with
  | EmptyString => 0
  | String _ h => occurrences needle h
  end.

(** Whether a character occurs in a string. *)
Fixpoint has_char (p : ascii → bool) (s : string) : bool :=
  match s with
  | EmptyString => false
  | String c r => p c || has_char p r
  end.

End Js.

(** ** JavaScript values and errors *)

(** The values a JSON response body can hold, and [undefined].  A number is
    kept as the text JavaScript prints it with, which is all the program ever
    does with one.  An object lists its own properties in creation order; a
    parsed JSON document creates them in the order they are written. *)
Inductive jsval : Type :=
  | JUndefined
  | JNull
  | JBool (b : bool)
  | JNum (repr : string)
  | JStr (s : string)
  | JArr (elems : list jsval)
  | JObj (props : list (string * jsval)).

(** What a [throw] or a rejected promise carries. *)
Inductive js_error : Type :=
  | TypeError (msg : string)
  | AxiosError (msg : string)
  | SystemError (code : string) (path : string)
  | PrettierError (msg : string).

(** The outcome of a synchronous expression. *)
Inductive completion (A : Type) : Type :=
  | Normal (a : A)
  | Throw (e : js_error).
Arguments Normal {A} a.
Arguments Throw {A} e.

Definition cbind {A B} (k : A → completion B) (c : completion A) : completion B :=
  match c with
  | Normal a => k a
  | Throw e => Throw e
  end.

Global Instance completion_bind : MBind completion := @cbind.
Global Instance completion_ret : MRet completion := @Normal.

(** ** The Name Deriver *)

Record DerivedNames : Type := { name : string; collection : string }.

Definition pascal (segments : list string) : string :=
  Js.join "" (Js.capitalize <$> segments).

(** [processString(str)].  Calling [.split] on a value that is no string
    throws, and so does [str.split('.')[1].split('-')] when the string has no
    dot. *)
Definition processString (str : jsval) : completion DerivedNames :=
  match str with
  | JStr s =>
      let capitalizedSegments := Js.capitalize <$> Js.split Js.is_hyphen_or_dot s in
      match Js.split Js.is_dot s !! 1 with
      | Some second =>
          let nameSegments := Js.capitalize <$> Js.split Js.is_hyphen second in
          let name := Js.join "" nameSegments in
          let collection := "Component" +:+ Js.join "" capitalizedSegments in
          Normal {| name := name; collection := collection |}
      | None =>
          Throw (TypeError "Cannot read properties of undefined (reading 'split')")
      end
  | JUndefined =>
      Throw (TypeError "Cannot read properties of undefined (reading 'split')")
  | JNull =>
      Throw (TypeError "Cannot read properties of null (reading 'split')")
  | _ => Throw (TypeError "str.split is not a function")
  end.

(** ** Property access, enumeration and string conversion *)

Definition digit_value (c : ascii) : option N :=
  let n := N_of_ascii c in
  if (48 <=? n)%N && (n <=? 57)%N then Some (n - 48)%N else None.

Fixpoint digits_value (acc : N) (s : string) : option N :=
  match s with
  | EmptyString => Some acc
  | String c r =>
      match digit_value c with
      | Some d => digits_value (10 * acc + d)%N r
      | None => None
      end
  end.

(** A property key is an array index when it is the canonical decimal text of
    an integer between 0 and 2^32 - 2. *)
Definition array_index (k : string) : option N :=
  match k with
  | EmptyString => None
  | _ =>
      match digits_value 0 k with
      | Some n =>
          if bool_decide (pretty n = k) && (n <=? 4294967294)%N then Some n else None
      | None => None
      end
  end.

Definition index_le (a b : N * string) : Prop := (a.1 ≤ b.1)%N.

Global Instance index_le_dec : RelDecision index_le.
Proof. intros a b. unfold index_le. apply _. Defined.

(** The own property keys of an object in the order every enumeration of
    JavaScript visits them: array indices first, by ascending value, then the
    other keys in creation order. *)
Definition own_keys (props : list (string * jsval)) : list string :=
  let ks := fst <$> props in
  let indices := omap (λ k, (λ n, (n, k)) <$> array_index k) ks in
  let names := filter (λ k, array_index k = None) ks in
  (snd <$> merge_sort index_le indices) ++ names.

Definition index_keys (n : nat) : list string := pretty <$> seq 0 n.

(** [Object.keys(v)] *)
Definition Object_keys (v : jsval) : completion (list string) :=
  match v with
  | JObj props => Normal (own_keys props)
  | JArr elems => Normal (index_keys (length elems))
  | JStr s => Normal (index_keys (String.length s))
  | JBool _ | JNum _ => Normal []
  | JUndefined | JNull =>
      Throw (TypeError "Cannot convert undefined or null to object")
  end.

Fixpoint lookup_prop (k : string) (props : list (string * jsval)) : jsval :=
  match props with
  | [] => JUndefined
  | (k', v) :: r => if bool_decide (k' = k) then v else lookup_prop k r
  end.

Definition char_at (s : string) (i : nat) : jsval :=
  match String.get i s with
  | Some c => JStr (String c EmptyString)
  | None => JUndefined
  end.

(** [v[k]] and [v.k] for the keys the program reads: the fixed names [data],
    [schema], [attributes], [type] and [component], none of which any
    prototype defines, and the keys [Object.keys] has just listed. *)
Definition get (v : jsval) (k : string) : completion jsval :=
  match v with
  | JObj props => Normal (lookup_prop k props)
  | JArr elems =>
      Normal match array_index k with
             | Some i => default JUndefined (elems !! N.to_nat i)
             | None => JUndefined
             end
  | JStr s =>
      Normal match array_index k with
             | Some i => char_at s (N.to_nat i)
             | None => JUndefined
             end
  | JBool _ | JNum _ => Normal JUndefined
  | JUndefined =>
      Throw (TypeError ("Cannot read properties of undefined (reading '" +:+ k +:+ "')"))
  | JNull =>
      Throw (TypeError ("Cannot read properties of null (reading '" +:+ k +:+ "')"))
  end.

(** The text a template literal substitutes for [${v}]. *)
Fixpoint ToString (v : jsval) : string :=
  match v with
  | JUndefined => "undefined"
  | JNull => "null"
  | JBool true => "true"
  | JBool false => "false"
  | JNum repr => repr
  | JStr s => s
  | JArr elems =>
      Js.join "," (map (λ x, match x with
                             | JUndefined | JNull => ""
                             | _ => ToString x
                             end) elems)
  | JObj _ => "[object Object]"
  end.

(** ** Promises *)

(** The state a promise ends in.  [Pending] is a promise that never settles:
    the recursion below takes a bound on the nesting depth it follows, and a
    resolution that needs to go deeper stays pending. *)
Inductive promise (A : Type) : Type :=
  | Fulfilled (a : A)
  | Rejected (e : js_error)
  | Pending.
Arguments Fulfilled {A} a.
Arguments Rejected {A} e.
Arguments Pending {A}.

Definition is_fulfilled {A} (p : promise A) : bool :=
  match p with Fulfilled _ => true | _ => false end.

(** The order in which the [n] promises handed to [Promise.all] settle: the
    indices a scheduler names, without repetitions and out-of-range entries,
    followed by the indices it left out. *)
Definition settle_order (n : nat) (named : list nat) : list nat :=
  let first := remove_dups (filter (λ i, i < n) named) in
  first ++ filter (λ i, i ∉ first) (seq 0 n).

(** The reactions [Promise.all] attaches to its input promises, run in the
    order the promises settle.  A fulfilled promise stores its value in the
    slot of its own index and decrements the counter, and the last one to do
    so fulfils the result with the slots; the first rejected promise rejects
    the result. *)
Fixpoint all_react {A} (ps : list (promise A)) (order : list nat)
    (values : list (option A)) (remaining : nat) : promise (list (option A)) :=
  match order with
  | [] => Pending
  | i :: rest =>
      match ps !! i with
      | Some (Fulfilled x) =>
          let values := <[i := Some x]> values in
          match remaining with
          | 1 => Fulfilled values
          | _ => all_react ps rest values (remaining - 1)
          end
      | Some (Rejected e) => Rejected e
      | Some Pending | None => all_react ps rest values remaining
      end
  end.

(** [Promise.all(ps)], with the promises settling in the order [named]. *)
Definition Promise_all {A} (named : list nat) (ps : list (promise A)) : promise (list A) :=
  match ps with
  | [] => Fulfilled []
  | _ =>
      let n := length ps in
      match all_react ps (settle_order n named) (replicate n None) n with
      | Fulfilled values => Fulfilled (omap id values)
      | Rejected e => Rejected e
      | Pending => Pending
      end
  end.

(** ** The Schema Resolver *)

(** What [axios.get] settles with: it rejects on a transport failure and on a
    status outside 2xx, and otherwise fulfils with a response whose [data] is
    the parsed body (the raw text, a [JStr], when the body is no JSON). *)
Inductive axios_result : Type :=
  | AxiosRejects (e : js_error)
  | AxiosResponds (data : jsval).

(** What a run does that can be observed from outside. *)
Inductive event : Type :=
  | HttpGet (url : string)
  | ConsoleError (label : option string) (e : js_error).

(** The line feed of the [\n] escapes. *)
Definition nl : string := String "010"%char EmptyString.

(** The double quote. *)
Definition dq : string := String "034"%char EmptyString.

Definition media_selection (field : string) : string :=
  field +:+ " {" +:+ nl +:+
  "      data {" +:+ nl +:+
  "        attributes {" +:+ nl +:+
  "          url" +:+ nl +:+
  "        }" +:+ nl +:+
  "      }" +:+ nl +:+
  "    }".

Definition component_selection (field : string) (componentFields : list string) : string :=
  field +:+ " {" +:+ nl +:+
  "      " +:+ Js.join (nl +:+ "      ") componentFields +:+ nl +:+
  "    }".

Definition component_url (url component : jsval) : string :=
  ToString url +:+ "/api/content-type-builder/components/" +:+ ToString component.

Definition fetch_diagnostic (component : jsval) : string :=
  "Error fetching component " +:+ ToString component +:+ ":".

(** The cases of [switch (attributes[field].type)]: the [case] labels are
    compared with [===], so only the strings themselves match. *)
Inductive field_kind : Type := Media | Component | Other.

Definition classify (type : jsval) : field_kind :=
  match type with
  | JStr s =>
      if bool_decide (s = "media") then Media
      else if bool_decide (s = "component") then Component
      else Other
  | _ => Other
  end.

(** The value [fetchComponentFields] resolves with: the selections, or [null]. *)
Abbreviation fields_or_null := (option (list string)).

Section Resolver.

(** The Strapi instance, as seen through [axios.get]. *)
Variable net : string → axios_result.
(** For the keys of the schema being resolved, the order in which the
    per-field promises settle. *)
Variable sched : list string → list nat.
(** [config.url], read when a nested component is fetched. *)
Variable config_url : jsval.

(** The body of the [async (field) => ...] callback of [parseFields], given
    the function it calls for a nested component. *)
Definition resolve_field
    (fetch : jsval → jsval → promise fields_or_null * list event)
    (attributes : jsval) (field : string) : promise string * list event :=
  match (descriptor ← get attributes field; get descriptor "type") with
  | Throw e => (Rejected e, [])
  | Normal type =>
      match classify type with
      | Media => (Fulfilled (media_selection field), [])
      | Component =>
          match (descriptor ← get attributes field; get descriptor "component") with
          | Throw e => (Rejected e, [])
          | Normal component =>
              let componentFields := fetch config_url component in
              (match componentFields.1 with
               | Fulfilled (Some fields) => Fulfilled (component_selection field fields)
               | Fulfilled None =>
                   Rejected (TypeError "Cannot read properties of null (reading 'join')")
               | Rejected e => Rejected e
               | Pending => Pending
               end, componentFields.2)
          end
      | Other => (Fulfilled field, [])
      end
  end.

(** [parseFields(attributes)], given the function its callback calls.  The
    callbacks start in key order; the trace lists the events of each in that
    order, one call after the other.  It tells which events there are and
    their order along one chain of calls; in the program the events of
    sibling fields that wait for a response come mixed, and the trace is no
    record of that order. *)
Definition parseFields_with
    (fetch : jsval → jsval → promise fields_or_null * list event)
    (attributes : jsval) : promise (list string) * list event :=
  match Object_keys attributes with
  | Throw e => (Rejected e, [])
  | Normal keys =>
      let fieldPromises := resolve_field fetch attributes <$> keys in
      (Promise_all (sched keys) (fst <$> fieldPromises),
       concat (snd <$> fieldPromises))
  end.

(** [fetchComponentFields(url, component)], following nested components to
    depth [fuel].  The [catch] covers the request and the property reads; the
    promise of [parseFields] is returned without being awaited, so its
    rejection is the rejection of the caller. *)
Fixpoint fetchComponentFields (fuel : nat) (url component : jsval)
    : promise fields_or_null * list event :=
  match fuel with
  | 0 => (Pending, [])
  | S fuel =>
      let request := component_url url component in
      match net request with
      | AxiosRejects error =>
          (Fulfilled None,
           [HttpGet request; ConsoleError (Some (fetch_diagnostic component)) error])
      | AxiosResponds data =>
          match (d ← get data "data"; s ← get d "schema"; get s "attributes") with
          | Throw error =>
              (Fulfilled None,
               [HttpGet request; ConsoleError (Some (fetch_diagnostic component)) error])
          | Normal attributes =>
              let parsed := parseFields_with (fetchComponentFields fuel) attributes in
              (match parsed.1 with
               | Fulfilled fields => Fulfilled (Some fields)
               | Rejected e => Rejected e
               | Pending => Pending
               end, HttpGet request :: parsed.2)
          end
      end
  end.

(** [parseFields(attributes)] *)
Definition parseFields (fuel : nat) (attributes : jsval)
    : promise (list string) * list event :=
  parseFields_with (fetchComponentFields fuel) attributes.

End Resolver.

(** ** Paths *)

Module Path.

(** One step of Node's [normalizeString] over the segments between slashes.
    The segments kept so far are held last first. *)
Definition norm_step (allowAboveRoot : bool) (kept : list string) (seg : string)
    : list string :=
  if bool_decide (seg = "") || bool_decide (seg = ".") then kept
  else if bool_decide (seg = "..") then
    match kept with
    | top :: below =>
        if bool_decide (top = "..") then
          (if allowAboveRoot then ".." :: kept else kept)
        else below
    | [] => if allowAboveRoot then [".."] else []
    end
  else seg :: kept.

Definition norm_segments (allowAboveRoot : bool) (kept : list string)
    (segs : list string) : list string :=
  foldl (norm_step allowAboveRoot) kept segs.

Definition ends_with_slash (p : string) : bool :=
  match last (Js.split Js.is_slash p) with
  | Some seg => bool_decide (seg = "") && negb (bool_decide (p = ""))
  | None => false
  end.

(** [path.normalize(p)] of the POSIX flavour. *)
Definition normalize (p : string) : string :=
  if bool_decide (p = "") then "."
  else
    let isAbsolute := Js.startsWith "/" p in
    let trailingSeparator := ends_with_slash p in
    let body :=
      Js.join "/" (rev (norm_segments (negb isAbsolute) [] (Js.split Js.is_slash p))) in
    if bool_decide (body = "") then
      (if isAbsolute then "/" else if trailingSeparator then "./" else ".")
    else
      (if isAbsolute then "/" else "") +:+ body +:+
      (if trailingSeparator then "/" else "").

(** What the message of an invalid argument says it received. *)
Definition received (v : jsval) : string :=
  match v with
  | JUndefined => "undefined"
  | JNull => "null"
  | JBool _ => "type boolean (" +:+ ToString v +:+ ")"
  | JNum repr => "type number (" +:+ repr +:+ ")"
  | JStr s => "type string ('" +:+ s +:+ "')"
  | JArr _ => "an instance of Array"
  | JObj _ => "an instance of Object"
  end.

(** The [ERR_INVALID_ARG_TYPE] that [validateString] throws for an argument
    that is no string. *)
Definition invalid_path_argument (v : jsval) : js_error :=
  TypeError ("The " +:+ dq +:+ "path" +:+ dq +:+
             " argument must be of type string. Received " +:+ received v).

Fixpoint validate (parts : list jsval) : completion (list string) :=
  match parts with
  | [] => Normal []
  | JStr s :: rest => r ← validate rest; Normal (s :: r)
  | v :: _ => Throw (invalid_path_argument v)
  end.

(** [path.join(...parts)] *)
Definition join (parts : list jsval) : completion string :=
  strings ← validate parts;
  match filter (λ s, s ≠ "") strings with
  | [] => Normal "."
  | nonempty => Normal (normalize (Js.join "/" nonempty))
  end.

(** The text of the path made of the first [k] segments. *)
Definition prefix_path (segs : list string) (k : nat) : string :=
  match Js.join "/" (take k segs) with
  | EmptyString => "/"
  | p => p
  end.

(** A path and the directories above it, outermost first. *)
Definition ancestors (p : string) : list string :=
  let segs := Js.split Js.is_slash p in
  prefix_path segs <$> seq 1 (length segs).

(** The directory a path lies in. *)
Definition dirname (p : string) : string :=
  let segs := Js.split Js.is_slash p in
  prefix_path segs (length segs - 1).

End Path.

(** ** The file system *)

(** The directories and the regular files, by path.  The paths the program
    uses come out of [path.join] below the absolute working directory. *)
Record filesystem : Type := {
  dirs : gset string;
  files : gmap string string
}.

Inductive fs_event : Type :=
  | Mkdir (path : string)
  | AppendFile (path data : string).

(** What a run has done so far. *)
Record world : Type := {
  fs : filesystem;
  events : list event;
  writes : list fs_event
}.

(** How a piece of the program ends: with a value, with an exception, or
    never, awaiting a promise that stays pending. *)
Inductive result (A : Type) : Type :=
  | Ok (a : A)
  | Err (e : js_error)
  | Hang.
Arguments Ok {A} a.
Arguments Err {A} e.
Arguments Hang {A}.

Definition io (A : Type) : Type := world → result A * world.

Definition ret {A} (a : A) : io A := λ w, (Ok a, w).

Definition bind {A B} (k : A → io B) (m : io A) : io B :=
  λ w, match m w with
       | (Ok a, w') => k a w'
       | (Err e, w') => (Err e, w')
       | (Hang, w') => (Hang, w')
       end.

Global Instance io_bind : MBind io := @bind.
Global Instance io_ret : MRet io := @ret.

Definition throw {A} (e : js_error) : io A := λ w, (Err e, w).

Definition lift {A} (c : completion A) : io A :=
  match c with
  | Normal a => ret a
  | Throw e => throw e
  end.

(** [await] of a promise whose computation left [trace]. *)
Definition await {A} (p : promise A * list event) : io A :=
  λ w,
    let w' := {| fs := fs w; events := events w ++ p.2; writes := writes w |} in
    (match p.1 with
     | Fulfilled a => Ok a
     | Rejected e => Err e
     | Pending => Hang
     end, w').

Definition when (b : bool) (m : io ()) : io () := if b then m else ret ().

Definition is_file (f : filesystem) (p : string) : bool :=
  bool_decide (is_Some (files f !! p)).

Definition is_dir (f : filesystem) (p : string) : bool :=
  bool_decide (p ∈ dirs f).

(** [fs.existsSync(p)] *)
Definition existsSync (p : string) : io bool :=
  λ w, (Ok (is_dir (fs w) p || is_file (fs w) p), w).

(** [fs.mkdirSync(p, { recursive: true })]: the directory and those above it
    are created; a regular file in the way makes the call throw. *)
Definition mkdirSync_recursive (p : string) : io () :=
  λ w,
    let above := Path.ancestors p in
    match filter (λ a, is_file (fs w) a = true) above with
    | blocker :: _ =>
        (Err (SystemError (if bool_decide (blocker = p) then "EEXIST" else "ENOTDIR") p), w)
    | [] =>
        (Ok (),
         {| fs := {| dirs := dirs (fs w) ∪ list_to_set above; files := files (fs w) |};
            events := events w;
            writes := writes w ++ [Mkdir p] |})
    end.

(** [fs.appendFileSync(p, data, { encoding: 'utf8' })]: creates the file in
    an existing directory, or adds to its end. *)
Definition appendFileSync (p data : string) : io () :=
  λ w,
    if is_dir (fs w) p then (Err (SystemError "EISDIR" p), w)
    else if negb (is_dir (fs w) (Path.dirname p)) then
      (Err (SystemError
              (if is_file (fs w) (Path.dirname p) then "ENOTDIR" else "ENOENT") p), w)
    else
      (Ok (),
       {| fs := {| dirs := dirs (fs w);
                   files := <[p := default "" (files (fs w) !! p) +:+ data]> (files (fs w)) |};
          events := events w;
          writes := writes w ++ [AppendFile p data] |}).

(** [fs.readFileSync(p, { encoding: 'utf8' })] *)
Definition readFileSync (p : string) : io string :=
  λ w,
    match files (fs w) !! p with
    | Some content => (Ok content, w)
    | None =>
        (Err (SystemError (if is_dir (fs w) p then "EISDIR" else "ENOENT") p), w)
    end.

(** ** The command line and the Artifact Emitter *)

Record config : Type := {
  component : jsval;
  url : jsval;
  dir : jsval
}.

(** The [config] object as declared. *)
Definition default_config : config :=
  {| component := JNull; url := JStr "http://localhost:1337"; dir := JStr "" |}.

Definition set_option (c : config) (flag : string) (value : jsval) : config :=
  if bool_decide (flag = "-i") || bool_decide (flag = "--component") then
    {| component := value; url := url c; dir := dir c |}
  else if bool_decide (flag = "--url") then
    {| component := component c; url := value; dir := dir c |}
  else if bool_decide (flag = "--dir") then
    {| component := component c; url := url c; dir := value |}
  else c.

(** The loop over [args]: every position is looked at, and a flag takes the
    argument after it, [undefined] past the end. *)
Fixpoint parse_args (args : list string) (c : config) : config :=
  match args with
  | [] => c
  | flag :: rest =>
      let next := match rest with
                  | value :: _ => JStr value
                  | [] => JUndefined
                  end in
      parse_args rest (set_option c flag next)
  end.

Definition lines (l : list string) : string := Js.join nl l.

Definition gqlFragment (name collection : string) (attributes : list string) : string :=
  lines [
    "";
    "    import { gql } from 'graphql-tag';";
    "";
    "    export const " +:+ name +:+ " = gql`";
    "      fragment " +:+ name +:+ " on " +:+ collection +:+ " {";
    "        " +:+ Js.join (nl +:+ "    ") attributes;
    "      }";
    "  `;" ].

Definition componentCode (name : string) : string :=
  lines [
    "";
    "    <template>";
    "      <div>";
    "        {{ data }}";
    "      </div>";
    "    </template>";
    "";
    "    <script setup lang=" +:+ dq +:+ "ts" +:+ dq +:+ ">";
    "      import type { " +:+ name +:+ " } from './" +:+ Js.lowerFirst name +:+ ".types.ts';";
    "";
    "      defineProps({";
    "        data: {";
    "          type: Object as PropType<" +:+ name +:+ ">,";
    "          required: true,";
    "        },";
    "      });";
    "    </script>";
    "  " ].

Definition componentTypesCode (name : string) : string :=
  lines [
    "";
    "    /**";
    "     * " +:+ name +:+ " section types.";
    "     */";
    "    export interface " +:+ name +:+ " {";
    "    }";
    "  " ].

Definition indexCode (name : string) : string :=
  "export { " +:+ name +:+ " } from './sections/" +:+ Js.lowerFirst name +:+ "';" +:+ nl.

(** The four texts a run produces. *)
Record artifacts : Type := {
  fragmentCode : string;
  formattedComponentCode : string;
  formattedComponentTypesCode : string;
  barrelLine : string
}.

Section Main.

Variable net : string → axios_result.
Variable sched : list string → list nat.
(** [prettier.format(code, options)] with the options of [formatCode], by
    code and parser. *)
Variable prettier_format : string → string → promise string.
(** [process.cwd()] *)
Variable cwd : string.

(** [formatCode(code, parser)] *)
Definition formatCode (code parser : string) : io string :=
  await (prettier_format code parser, []).

(** The four texts, from the two names and the awaited [attributes]:
    the templates, then the three calls of [formatCode]. *)
Definition render (name collection : string) (attributes : fields_or_null)
    : io artifacts :=
  fields ← match attributes with
           | Some fields => ret fields
           | None => throw (TypeError "Cannot read properties of null (reading 'join')")
           end;
  let gqlFragment := gqlFragment name collection fields in
  let componentCode := componentCode name in
  let componentTypesCode := componentTypesCode name in
  let indexCode := indexCode name in
  fragmentCode ← formatCode gqlFragment "typescript";
  formattedComponentCode ← formatCode componentCode "vue";
  formattedComponentTypesCode ← formatCode componentTypesCode "typescript";
  ret {| fragmentCode := fragmentCode;
         formattedComponentCode := formattedComponentCode;
         formattedComponentTypesCode := formattedComponentTypesCode;
         barrelLine := indexCode |}.

(** The paths of the three files, from the two directories and the name. *)
Definition fragmentFilePath (sectionsFragmentsDir name : string) : completion string :=
  Path.join [JStr sectionsFragmentsDir; JStr (Js.lowerFirst name +:+ ".ts")].

Definition componentFilePath (sectionsDir name : string) : completion string :=
  Path.join [JStr sectionsDir; JStr (name +:+ ".vue")].

Definition componentTypesFilePath (sectionsDir name : string) : completion string :=
  Path.join [JStr sectionsDir; JStr (Js.lowerFirst name +:+ ".types.ts")].

Definition sectionsDir (c : config) : completion string :=
  Path.join [JStr cwd; dir c; JStr "components"; JStr "sections"].

Definition sectionsFragmentsDir (c : config) : completion string :=
  Path.join [JStr cwd; dir c; JStr "graphql"; JStr "fragments"; JStr "sections"].

Definition sectionsFragmentsIndexDir (c : config) : completion string :=
  Path.join [JStr cwd; dir c; JStr "graphql"; JStr "fragments"; JStr "index.ts"].

(** From the fetch of the schema to the three calls of [formatCode]: the names
    and the four texts of a run. *)
Definition generate (fuel : nat) (c : config) : io (DerivedNames * artifacts) :=
  attributes ← await (fetchComponentFields net sched (url c) fuel (url c) (component c));
  names ← lift (processString (component c));
  texts ← render (name names) (collection names) attributes;
  ret (names, texts).

(** The writes that end the [try] block: each file only where nothing exists
    at its path, the export line only where the index file does not hold it. *)
Definition emit (sectionsDir sectionsFragmentsDir sectionsFragmentsIndexDir : string)
    (name : string) (texts : artifacts) : io () :=
  fragmentFilePath ← lift (fragmentFilePath sectionsFragmentsDir name);
  componentFilePath ← lift (componentFilePath sectionsDir name);
  componentTypesFilePath ← lift (componentTypesFilePath sectionsDir name);
  present ← existsSync fragmentFilePath;
  when (negb present) (appendFileSync fragmentFilePath (fragmentCode texts));;
  present ← existsSync componentFilePath;
  when (negb present)
    (appendFileSync componentFilePath (formattedComponentCode texts));;
  present ← existsSync componentTypesFilePath;
  when (negb present)
    (appendFileSync componentTypesFilePath (formattedComponentTypesCode texts));;
  isIndexFile ← existsSync sectionsFragmentsIndexDir;
  listed ← (if isIndexFile : bool then
              indexFileContent ← readFileSync sectionsFragmentsIndexDir;
              ret (Js.includes indexFileContent (barrelLine texts))
            else ret false);
  if listed : bool then ret ()
  else appendFileSync sectionsFragmentsIndexDir (barrelLine texts).

(** The body of the [try] block of the main function, to depth [fuel] of
    nested components. *)
Definition main_try (fuel : nat) (args : list string) : io () :=
  let c := parse_args args default_config in
  sectionsDir ← lift (sectionsDir c);
  sectionsFragmentsDir ← lift (sectionsFragmentsDir c);
  sectionsFragmentsIndexDir ← lift (sectionsFragmentsIndexDir c);
  present ← existsSync sectionsDir;
  when (negb present) (mkdirSync_recursive sectionsDir);;
  present ← existsSync sectionsFragmentsDir;
  when (negb present) (mkdirSync_recursive sectionsFragmentsDir);;
  generated ← generate fuel c;
  emit sectionsDir sectionsFragmentsDir sectionsFragmentsIndexDir
    (name generated.1) generated.2.

(** The main function: whatever the body throws is caught and logged. *)
Definition main (fuel : nat) (args : list string) (w : world) : result () * world :=
  match main_try fuel args w with
  | (Err error, w') =>
      (Ok (), {| fs := fs w'; events := events w' ++ [ConsoleError None error];
                 writes := writes w' |})
  | r => r
  end.

(** One invocation of the tool on a file system. *)
Definition run (fuel : nat) (args : list string) (f : filesystem) : result () * world :=
  main fuel args {| fs := f; events := []; writes := [] |}.

End Main.

(** ** Vocabulary of the properties *)

(** A token of a kebab-case name: a string without hyphen and dot. *)
Definition token (s : string) : Prop := Js.has_char Js.is_hyphen_or_dot s = false.

(** *** Capitals, letter by letter

    The case conversions of JavaScript follow Unicode.  On a code unit of
    ASCII they change the 26 letters and nothing else, and that is the part
    the properties below speak about: they take the first code unit of every
    token from ASCII, and they name the capital of a letter by its place in
    the alphabet. *)

Definition is_ascii (c : ascii) : bool := nat_of_ascii c <? 128.

(** A string whose first code unit, if there is one, is a code unit of
    ASCII. *)
Definition starts_in_ascii (s : string) : Prop :=
  match s with
  | EmptyString => True
  | String c _ => is_ascii c = true
  end.

Definition lower_letters : string := "abcdefghijklmnopqrstuvwxyz".
Definition upper_letters : string := "ABCDEFGHIJKLMNOPQRSTUVWXYZ".

(** The place of the first occurrence of a character in a string. *)
Fixpoint index_of (c : ascii) (s : string) : option nat :=
  match s with
  | EmptyString => None
  | String d r => if bool_decide (c = d) then Some 0 else S <$> index_of c r
  end.

(** The capital of a lower case letter; every other character is its own. *)
Definition capital (c : ascii) : ascii :=
  match index_of c lower_letters with
  | Some i => default c (String.get i upper_letters)
  | None => c
  end.

(** A word with a capital in front: [hero] becomes [Hero]. *)
Definition Capitalized (word : string) : string :=
  match word with
  | EmptyString => ""
  | String c r => String (capital c) r
  end.

(** Pascal case: the words, each with a capital in front, written one after
    the other. *)
Definition PascalCase (words : list string) : string :=
  foldr (λ word text, Capitalized word +:+ text) "" words.

(** Two promises agree when they end in the same state and, if fulfilled,
    with the same value. *)
Definition agree {A} (p q : promise A) : Prop :=
  match p, q with
  | Fulfilled a, Fulfilled b => a = b
  | Rejected _, Rejected _ => True
  | Pending, Pending => True
  | _, _ => False
  end.

(** A text with every run of white space read as one space. *)
Fixpoint squeeze (s : string) : string :=
  match s with
  | EmptyString => ""
  | String c r =>
      if Ascii.is_space c then
        match r with
        | String c' _ => if Ascii.is_space c' then squeeze r else String " " (squeeze r)
        | EmptyString => " "
        end
      else String c (squeeze r)
  end.

(** *** The schema of the specification's example

    A component with a scalar field, a media field and a field holding the
    component [ns.card], whose own schema has the one scalar field [text]. *)

Definition hero_attributes : list (string * jsval) :=
  [("title", JObj [("type", JStr "string")]);
   ("image", JObj [("type", JStr "media")]);
   ("hero", JObj [("type", JStr "component"); ("component", JStr "ns.card")])].

Definition schema_body (attributes : jsval) : jsval :=
  JObj [("data", JObj [("schema", JObj [("attributes", attributes)])])].

Definition card_body : jsval :=
  schema_body (JObj [("text", JObj [("type", JStr "string")])]).

Definition localhost : jsval := JStr "http://localhost:1337".

Definition not_found : axios_result :=
  AxiosRejects (AxiosError "Request failed with status code 404").

(** An instance that knows [sections.hero] and [ns.card]. *)
Definition hero_net (request : string) : axios_result :=
  if bool_decide (request = component_url localhost (JStr "sections.hero")) then
    AxiosResponds (schema_body (JObj hero_attributes))
  else if bool_decide (request = component_url localhost (JStr "ns.card")) then
    AxiosResponds card_body
  else not_found.

(** An instance that knows [sections.hero] and answers 404 for [ns.card]. *)
Definition hero_net_without_card (request : string) : axios_result :=
  if bool_decide (request = component_url localhost (JStr "sections.hero")) then
    AxiosResponds (schema_body (JObj hero_attributes))
  else not_found.

(** An instance whose answer for every component is a schema without
    [attributes]. *)
Definition net_without_attributes (request : string) : axios_result :=
  AxiosResponds (JObj [("data", JObj [("schema", JObj [])])]).

Fixpoint strip_prefix (prefix s : string) : option string :=
  match prefix, s with
  | EmptyString, _ => Some s
  | String a p, String b r => if bool_decide (a = b) then strip_prefix p r else None
  | String _ _, EmptyString => None
  end.

(** The same instance, reachable at a second address as well. *)
Definition hero_net_mirrored (request : string) : axios_result :=
  match strip_prefix "http://cms.example" request with
  | Some path => hero_net ("http://localhost:1337" +:+ path)
  | None => hero_net request
  end.


(** The order of the keys. *)
Definition in_key_order (keys : list string) : list nat := [].


(** Two runs produce the same: both the same value, or both an exception, or
    both never an end. *)
Definition same_result {A} (r1 r2 : result A) : Prop :=
  match r1, r2 with
  | Ok a, Ok b => a = b
  | Err _, Err _ => True
  | Hang, Hang => True
  | _, _ => False
  end.

(** *** Paths by their segments *)

(** A segment that names an entry: not empty, not [.] or [..], without
    slash. *)
Definition normal_segment (s : string) : Prop :=
  s ≠ "" ∧ s ≠ "." ∧ s ≠ ".." ∧ Js.has_char Js.is_slash s = false.

(** The absolute path with the given segments, and the relative one. *)
Definition abs_path (segs : list string) : string := "/" +:+ Js.join "/" segs.
Definition rel_path (segs : list string) : string := Js.join "/" segs.

(** The output directories and the index file, below the target directory. *)
Definition sections_segs : list string := ["components"; "sections"].
Definition fragments_segs : list string := ["graphql"; "fragments"; "sections"].
Definition index_segs : list string := ["graphql"; "fragments"; "index.ts"].

(** Nothing exists below the directory with segments [root]. *)
Definition empty_below (f : filesystem) (root : list string) : Prop :=
  ∀ rest, rest ≠ [] →
    (abs_path (root ++ rest) ∉ (dirs f)) ∧ files f !! abs_path (root ++ rest) = None.

(** The world a process starts in. *)
Definition fresh (f : filesystem) : world := {| fs := f; events := []; writes := [] |}.

(** *** A run of the example

    The tool is called with [-i sections.hero --dir foo] in the directory
    [/home/site], on a file system without any entry, with a formatter that
    returns its input. *)

Definition site_segs : list string := ["home"; "site"].
Definition site_args : list string := ["-i"; "sections.hero"; "--dir"; "foo"].
Definition no_entries : filesystem := {| dirs := ∅; files := ∅ |}.
Definition verbatim (code parser : string) : promise string := Fulfilled code.

(** The world the first run of the example ends in. *)
Definition site_after_first_run : world :=
  (main_try hero_net in_key_order verbatim (abs_path site_segs) 2 site_args
     (fresh no_entries)).2.

(** The promise at an index is fulfilled. *)
Definition fulfilled_at {A} (ps : list (promise A)) (i : nat) : Prop :=
  is_fulfilled (default Pending (ps !! i)) = true.

Global Instance fulfilled_at_dec {A} (ps : list (promise A)) i :
  Decision (fulfilled_at ps i).
Proof. unfold fulfilled_at. apply _. Defined.

(** Every request of [trace] for a component at the address [url1] gets from
    [net1] what the request for the component at [url2] gets from [net2]. *)
Definition answered_alike (net1 net2 : string → axios_result) (url1 url2 : jsval)
    (trace : list event) : Prop :=
  ∀ component,
    HttpGet (component_url url1 component) ∈ trace →
    net1 (component_url url1 component) = net2 (component_url url2 component).


(** An action that leaves the file system and the record of writes as they
    are. *)
Definition reads_only {A} (m : io A) : Prop :=
  ∀ w, fs (m w).2 = fs w ∧ writes (m w).2 = writes w.

(** The segments, below the target directory, of the three files of the
    display name [nm] and of the index file. *)
Definition output_segs (nm : string) : list (list string) :=
  [fragments_segs ++ [Js.lowerFirst nm +:+ ".ts"];
   sections_segs ++ [nm +:+ ".vue"];
   sections_segs ++ [Js.lowerFirst nm +:+ ".types.ts"];
   index_segs].

(** *** What a run may change *)

(** The four option names of the command line. *)
Definition flags : list string := ["-i"; "--component"; "--url"; "--dir"].

(** The writes of [w'] are those of [w] followed by writes that all satisfy
    [allowed]. *)
Definition writes_extend (allowed : fs_event → Prop) (w w' : world) : Prop :=
  ∃ added, writes w' = writes w ++ added ∧ Forall allowed added.

(** Every regular file of [w] whose path satisfies [keep] is a file of [w']
    with the content it has in [w]. *)
Definition files_kept (keep : string → Prop) (w w' : world) : Prop :=
  ∀ p content,
    keep p → files (fs w) !! p = Some content → files (fs w') !! p = Some content.

(** A write that creates one of the two output directories. *)
Definition creates_output_dir (cwd : string) (c : config) (ev : fs_event) : Prop :=
  ∃ p, ev = Mkdir p ∧ (sectionsDir cwd c = Normal p ∨ sectionsFragmentsDir cwd c = Normal p).

(** A write that adds one of the four texts to the path it is made for. *)
Definition emits (sd sfd idx nm : string) (texts : artifacts) (ev : fs_event) : Prop :=
  (∃ p, fragmentFilePath sfd nm = Normal p ∧ ev = AppendFile p (fragmentCode texts))
  ∨ (∃ p, componentFilePath sd nm = Normal p
          ∧ ev = AppendFile p (formattedComponentCode texts))
  ∨ (∃ p, componentTypesFilePath sd nm = Normal p
          ∧ ev = AppendFile p (formattedComponentTypesCode texts))
  ∨ ev = AppendFile idx (barrelLine texts).




(** An instance that answers 404 to every request. *)
Definition not_found_net (request : string) : axios_result := not_found.

(** A schema without a component: a scalar field, a media field and a field
    whose descriptor names no type. *)
Definition flat_attributes : list (string * jsval) :=
  [("title", JObj [("type", JStr "string")]);
   ("cover", JObj [("type", JStr "media")]);
   ("7", JObj [])].

(** A formatter without the parser for Vue files. *)
Definition without_vue_parser (code parser : string) : promise string :=
  if bool_decide (parser = "vue") then
    Rejected (PrettierError "Couldn't resolve parser vue")
  else Fulfilled code.

(** The site of the example in use: the two output directories exist, the
    component file of [sections.hero] has been edited by hand, and the index
    file lists another fragment. *)
Definition site_in_use : filesystem :=
  {| dirs :=
       list_to_set
         (Path.ancestors (abs_path (site_segs ++ ["foo"] ++ sections_segs))
          ++ Path.ancestors (abs_path (site_segs ++ ["foo"] ++ fragments_segs)));
     files :=
       {[ abs_path (site_segs ++ ["foo"] ++ sections_segs ++ ["Hero.vue"])
            := "<template><h1>{{ data.title }}</h1></template>";
          abs_path (site_segs ++ ["foo"] ++ index_segs)
            := "export { Teaser } from './sections/teaser';" +:+ nl ]} |}.

(** The same site with a regular file where the directory
    [components/sections] should be, and the fragments directory in place. *)
Definition site_with_file_in_the_way : filesystem :=
  {| dirs :=
       list_to_set
         (Path.ancestors (abs_path (site_segs ++ ["foo"; "components"]))
          ++ Path.ancestors (abs_path (site_segs ++ ["foo"] ++ fragments_segs)));
     files :=
       {[ abs_path (site_segs ++ ["foo"] ++ sections_segs) := "sections are listed here" ]} |}.

(** The names of [sections.hero], and its four texts as a formatter that
    returns its input leaves them. *)
Definition hero_names : DerivedNames :=
  {| name := "Hero"; collection := "ComponentSectionsHero" |}.

Definition hero_texts : artifacts :=
  {| fragmentCode :=
       gqlFragment "Hero" "ComponentSectionsHero"
         ["title"; media_selection "image"; component_selection "hero" ["text"]];
     formattedComponentCode := componentCode "Hero";
     formattedComponentTypesCode := componentTypesCode "Hero";
     barrelLine := indexCode "Hero" |}.

(** * Properties *)

(** ** Strings *)

Module JsFacts.

Lemma split_nonempty sep s : Js.split sep s ≠ [].
Proof.
  destruct s as [|c r]; simpl; [done|].
  destruct (sep c); [done|]. by destruct (Js.split sep r).
Qed.

Lemma split_app_sep sep a c b :
  sep c = true →
  Js.split sep (a +:+ String c b) = Js.split sep a ++ Js.split sep b.
Proof.
  intros Hc. induction a as [|x a IH]; simpl.
  - by rewrite Hc.
  - destruct (sep x); [by rewrite IH|].
    rewrite IH. pose proof (split_nonempty sep a) as Hne.
    by destruct (Js.split sep a).
Qed.

Lemma split_no_sep sep s : Js.has_char sep s = false → Js.split sep s = [s].
Proof.
  induction s as [|c r IH]; simpl; [done|].
  intros [Hc Hr]%orb_false_elim. by rewrite Hc, IH.
Qed.

Lemma has_char_app p a b :
  Js.has_char p (a +:+ b) = Js.has_char p a || Js.has_char p b.
Proof. induction a as [|c a IH]; simpl; [done|]. by rewrite IH, orb_assoc. Qed.

Lemma has_char_join p c tokens :
  p c = false →
  Forall (λ t, Js.has_char p t = false) tokens →
  Js.has_char p (Js.join (String c EmptyString) tokens) = false.
Proof.
  intros Hc. induction 1 as [|t ts Ht Hts IH]; [done|].
  destruct ts as [|t' ts]; [done|].
  change (Js.join (String c EmptyString) (t :: t' :: ts))
    with (t +:+ String c (Js.join (String c EmptyString) (t' :: ts))).
  rewrite has_char_app.
  change (Js.has_char p (String c ?s)) with (p c || Js.has_char p s).
  by rewrite Ht, Hc, IH.
Qed.

Lemma split_join sep c tokens :
  sep c = true → tokens ≠ [] →
  Forall (λ t, Js.has_char sep t = false) tokens →
  Js.split sep (Js.join (String c EmptyString) tokens) = tokens.
Proof.
  intros Hc Hne Htok. induction Htok as [|t ts Ht Hts IH]; [done|].
  destruct ts as [|t' ts]; [by apply split_no_sep|].
  change (Js.join (String c EmptyString) (t :: t' :: ts))
    with (t +:+ String c (Js.join (String c EmptyString) (t' :: ts))).
  rewrite split_app_sep by done. rewrite split_no_sep by done.
  by rewrite IH.
Qed.

Lemma token_no_hyphen s : token s → Js.has_char Js.is_hyphen s = false.
Proof.
  unfold token. induction s as [|c r IH]; simpl; [done|].
  unfold Js.is_hyphen_or_dot at 1.
  intros [[? ?]%orb_false_elim ?]%orb_false_elim. rewrite IH by done.
  by rewrite orb_false_r.
Qed.

Lemma token_no_dot s : token s → Js.has_char Js.is_dot s = false.
Proof.
  unfold token. induction s as [|c r IH]; simpl; [done|].
  unfold Js.is_hyphen_or_dot at 1.
  intros [[? ?]%orb_false_elim ?]%orb_false_elim. rewrite IH by done.
  by rewrite orb_false_r.
Qed.

Lemma append_nil_r s : s +:+ "" = s.
Proof.
  induction s as [|c s IH]; [done|].
  change (String c s +:+ "") with (String c (s +:+ "")). by rewrite IH.
Qed.

(** On every character of the model, [toUpperCase] is the capital by the
    alphabet. *)
Lemma toUpperCase_capital c : Js.toUpperCase c = capital c.
Proof. by destruct c as [[] [] [] [] [] [] [] []]; vm_compute. Qed.

Lemma capitalize_Capitalized s : Js.capitalize s = Capitalized s.
Proof. destruct s as [|c s]; [done|]. simpl. by rewrite toUpperCase_capital. Qed.

Lemma pascal_PascalCase words : pascal words = PascalCase words.
Proof.
  unfold pascal. induction words as [|word words IH]; [done|].
  rewrite fmap_cons. simpl PascalCase. rewrite <- IH, capitalize_Capitalized.
  destruct words as [|next words]; [by rewrite append_nil_r|].
  rewrite fmap_cons. by destruct (Capitalized word).
Qed.

Lemma startsWith_app a b : Js.startsWith a (a +:+ b) = true.
Proof.
  induction a as [|c a IH]; simpl; [done|].
  rewrite bool_decide_eq_true_2 by done. exact IH.
Qed.

End JsFacts.

(** ** The Name Deriver *)

Section NameDeriver.

Import JsFacts.

(** C4.  For an identifier made of a namespace and a kebab-case name, that
    is [ns.a-b-c] with tokens free of hyphens and dots that start with a code
    unit of ASCII (the namespace may itself be hyphenated), [processString]
    returns as display name the tokens of the name in Pascal case, each with
    the capital of its first letter in front and all joined, and as type name
    [Component] followed by the tokens of the namespace and of the name in
    Pascal case. *)
Theorem processString_pascal_case (ns segs : list string) :
  ns ≠ [] → segs ≠ [] → Forall token ns → Forall token segs →
  Forall starts_in_ascii (ns ++ segs) →
  processString (JStr (Js.join "-" ns +:+ "." +:+ Js.join "-" segs))
  = Normal {| name := PascalCase segs;
              collection := "Component" +:+ PascalCase (ns ++ segs) |}.
Proof.
  intros Hns Hsegs Tns Tsegs _. rewrite <- !pascal_PascalCase.
  unfold processString, pascal.
  assert (Hd : Js.split Js.is_dot (Js.join "-" ns +:+ "." +:+ Js.join "-" segs)
               = [Js.join "-" ns; Js.join "-" segs]).
  { change ("." +:+ Js.join "-" segs) with (String "."%char (Js.join "-" segs)).
    rewrite split_app_sep by done.
    rewrite !split_no_sep; [done| |];
      (apply has_char_join; [done|]);
      (eapply Forall_impl; [eassumption|]); apply token_no_dot. }
  rewrite Hd. simpl lookup.
  assert (Hall : Js.split Js.is_hyphen_or_dot
                   (Js.join "-" ns +:+ "." +:+ Js.join "-" segs) = ns ++ segs).
  { change ("." +:+ Js.join "-" segs) with (String "."%char (Js.join "-" segs)).
    rewrite split_app_sep by done.
    by rewrite !(split_join Js.is_hyphen_or_dot "-"%char). }
  rewrite Hall.
  rewrite (split_join Js.is_hyphen "-"%char); [done..|].
  eapply Forall_impl; [eassumption|]. apply token_no_hyphen.
Qed.

(** The instance the specification names, and one with words. *)
Lemma processString_pascal_case_witness :
  processString (JStr "ns.a-b-c")
  = Normal {| name := "ABC"; collection := "ComponentNsABC" |}
  ∧ processString (JStr "page-sections.hero-banner-2x-wide")
    = Normal {| name := "HeroBanner2xWide";
                collection := "ComponentPageSectionsHeroBanner2xWide" |}.
Proof.
  split.
  - apply (processString_pascal_case ["ns"] ["a"; "b"; "c"]);
      [done | done | by repeat constructor | by repeat constructor
      | by repeat constructor].
  - apply (processString_pascal_case ["page"; "sections"] ["hero"; "banner"; "2x"; "wide"]);
      [done | done | by repeat constructor | by repeat constructor
      | by repeat constructor].
Defined.

(** What [processString] returns for a namespace without a dot, a kebab-case
    name and, possibly, a further dot and more text. *)
Lemma processString_kebab_name (ns : string) (segs : list string) (tail : string) :
  Js.has_char Js.is_dot ns = false →
  segs ≠ [] → Forall token segs →
  tail = "" ∨ (∃ further, tail = "." +:+ further) →
  ∃ names,
    processString (JStr (ns +:+ "." +:+ Js.join "-" segs +:+ tail)) = Normal names
    ∧ (∃ rest, collection names = "Component" +:+ rest)
    ∧ name names = PascalCase segs.
Proof.
  intros Hns Hsegs Tsegs Htail. rewrite <- pascal_PascalCase.
  assert (Js.has_char Js.is_dot (Js.join "-" segs) = false) as Hkebab.
  { apply has_char_join; [done|].
    eapply Forall_impl; [exact Tsegs|]. apply token_no_dot. }
  assert (∃ others,
            Js.split Js.is_dot (ns +:+ "." +:+ Js.join "-" segs +:+ tail)
            = ns :: Js.join "-" segs :: others) as [others Hsplit].
  { change (ns +:+ "." +:+ ?x) with (ns +:+ String "."%char x).
    rewrite split_app_sep, (split_no_sep _ ns) by done.
    destruct Htail as [->|[further ->]].
    - exists []. by rewrite append_nil_r, split_no_sep.
    - exists (Js.split Js.is_dot further).
      change ("." +:+ further) with (String "."%char further).
      by rewrite split_app_sep, split_no_sep. }
  unfold processString. rewrite Hsplit.
  change ((ns :: Js.join "-" segs :: others) !! 1) with (Some (Js.join "-" segs)).
  cbv beta iota zeta. eexists. split; [reflexivity|]. split.
  - by eexists.
  - simpl name. rewrite (split_join Js.is_hyphen "-"%char); [done..|].
    eapply Forall_impl; [exact Tsegs|]. apply token_no_hyphen.
Qed.

(** C7.  For an identifier whose part before the first dot is the namespace
    [ns], and whose part after it begins with the kebab-case name, tokens
    that start with a code unit of ASCII, and ends there or goes on with a
    further dot: the type name begins with [Component], and the display name
    is made of the tokens of the name alone, in Pascal case.  The namespace
    gives no segment to it: with any other namespace in front, the display
    name is the same. *)
Theorem processString_prefix_and_namespace (ns : string) (segs : list string)
    (tail : string) :
  Js.has_char Js.is_dot ns = false →
  segs ≠ [] → Forall token segs → Forall starts_in_ascii segs →
  tail = "" ∨ (∃ further, tail = "." +:+ further) →
  ∃ names,
    processString (JStr (ns +:+ "." +:+ Js.join "-" segs +:+ tail)) = Normal names
    ∧ (∃ rest, collection names = "Component" +:+ rest)
    ∧ name names = PascalCase segs
    ∧ ∀ other,
        Js.has_char Js.is_dot other = false →
        ∃ names',
          processString (JStr (other +:+ "." +:+ Js.join "-" segs +:+ tail))
          = Normal names'
          ∧ name names' = name names.
Proof.
  intros Hns Hsegs Tsegs _ Htail.
  destruct (processString_kebab_name ns segs tail Hns Hsegs Tsegs Htail)
    as (names & Hnames & Hprefix & Hname).
  exists names. split_and!; [done..|].
  intros other Hother.
  destruct (processString_kebab_name other segs tail Hother Hsegs Tsegs Htail)
    as (names' & Hnames' & _ & Hname').
  exists names'. split; [done|]. by rewrite Hname, Hname'.
Qed.

Lemma processString_prefix_and_namespace_witness :
  (∃ names,
     processString (JStr "ui.build") = Normal names
     ∧ (∃ rest, collection names = "Component" +:+ rest)
     ∧ name names = "Build"
     ∧ ∀ other,
         Js.has_char Js.is_dot other = false →
         ∃ names',
           processString (JStr (other +:+ ".build")) = Normal names'
           ∧ name names' = name names)
  ∧ (∃ names,
       processString (JStr "page-sections.hero-banner.v2") = Normal names
       ∧ (∃ rest, collection names = "Component" +:+ rest)
       ∧ name names = "HeroBanner"
       ∧ ∀ other,
           Js.has_char Js.is_dot other = false →
           ∃ names',
             processString (JStr (other +:+ ".hero-banner.v2")) = Normal names'
             ∧ name names' = name names).
Proof.
  split.
  - apply (processString_prefix_and_namespace "ui" ["build"] "");
      [done | done | by repeat constructor | by repeat constructor | by left].
  - apply (processString_prefix_and_namespace "page-sections" ["hero"; "banner"] ".v2");
      [done | done | by repeat constructor | by repeat constructor
      | right; by exists "v2"].
Defined.

End NameDeriver.

(** ** [Promise.all] *)

Module PromiseFacts.
Section All.

Context {A : Type}.
Implicit Types (ps qs : list (promise A)) (order named : list nat).
Implicit Types (values : list (option A)) (vs : list A).

Lemma settle_order_NoDup n named : NoDup (settle_order n named).
Proof.
  unfold settle_order. apply NoDup_app. split_and!.
  - apply NoDup_remove_dups.
  - intros i Hi Hi'. by apply list_elem_of_filter in Hi' as [Hn _].
  - apply NoDup_filter, NoDup_seq.
Qed.

Lemma elem_of_settle_order n named i : i ∈ settle_order n named ↔ i < n.
Proof.
  unfold settle_order.
  rewrite elem_of_app, elem_of_remove_dups, !list_elem_of_filter,
    elem_of_remove_dups, list_elem_of_filter, elem_of_seq.
  split.
  - intros [[? _]|[_ ?]]; lia.
  - intros Hi. destruct (decide (i ∈ named)); [by left|].
    right. split; [|lia]. by intros [_ ?].
Qed.

Lemma settle_order_length n named : length (settle_order n named) = n.
Proof.
  transitivity (length (seq 0 n)); [|apply length_seq]. apply Permutation_length.
  apply NoDup_Permutation; [apply settle_order_NoDup | apply NoDup_seq |].
  intros i. rewrite elem_of_settle_order, elem_of_seq. lia.
Qed.

(** When every promise is fulfilled, the slots end up holding the values
    by index, whatever the order. *)
Lemma all_react_fulfilled vs order values :
  NoDup order → order ≠ [] →
  (∀ i, i ∈ order → i < length vs) →
  length values = length vs →
  (∀ j, j < length vs → j ∉ order → values !! j = Some <$> vs !! j) →
  all_react (Fulfilled <$> vs) order values (length order) = Fulfilled (Some <$> vs).
Proof.
  intros Hnd. revert values.
  induction Hnd as [|i rest Hi Hnd IH]; intros values Hne Hlt Hlen Hinv; [done|].
  destruct (lookup_lt_is_Some_2 vs i) as [v Hv]; [apply Hlt; left|].
  simpl. rewrite list_lookup_fmap, Hv. simpl.
  assert (Hset : ∀ j, j < length vs → j ∉ rest →
            <[i:=Some v]> values !! j = Some <$> vs !! j).
  { intros j Hj Hnot. destruct (decide (j = i)) as [->|Hji].
    - rewrite list_lookup_insert_eq by lia. by rewrite Hv.
    - rewrite list_lookup_insert_ne by done. apply Hinv; [done|].
      by intros [->|?]%elem_of_cons. }
  destruct rest as [|i' rest'].
  - simpl. f_equal. apply list_eq. intros j.
    destruct (decide (j < length vs)) as [Hj|Hj].
    + rewrite Hset; [by rewrite list_lookup_fmap | done | apply not_elem_of_nil].
    + rewrite !lookup_ge_None_2; [done | rewrite length_fmap; lia
                                  | rewrite length_insert; lia].
  - change (length (i' :: rest')) with (S (length rest')).
    replace (S (S (length rest')) - 1) with (length (i' :: rest')) by (simpl; lia).
    apply IH; [done | | by rewrite length_insert | done].
    intros j Hj. apply Hlt. by right.
Qed.

(** The result is fulfilled only after as many fulfilments as the counter
    asks for. *)
Lemma all_react_counts ps order values remaining out :
  all_react ps order values remaining = Fulfilled out →
  1 ≤ remaining ≤ length (filter (fulfilled_at ps) order).
Proof.
  revert values remaining.
  induction order as [|i rest IH]; intros values remaining; [done|].
  simpl.
  assert (length (filter (fulfilled_at ps) rest)
          ≤ length (filter (fulfilled_at ps) (i :: rest))) as Hge.
  { rewrite filter_cons. destruct (decide _); simpl; lia. }
  destruct (ps !! i) as [[x|e|]|] eqn:Hi; try done.
  - assert (length (filter (fulfilled_at ps) (i :: rest))
            = S (length (filter (fulfilled_at ps) rest))) as ->.
    { rewrite filter_cons_True; [done|]. unfold fulfilled_at. by rewrite Hi. }
    destruct remaining as [|[|k]].
    + intros H%IH. lia.
    + intros _. lia.
    + intros H%IH. simpl in *. lia.
  - intros H%IH. lia.
  - intros H%IH. lia.
Qed.

Lemma all_react_rejection_source ps order values remaining e :
  all_react ps order values remaining = Rejected e →
  ∃ i, ps !! i = Some (Rejected e).
Proof.
  revert values remaining.
  induction order as [|i rest IH]; intros values remaining; [done|].
  simpl. destruct (ps !! i) as [[x|e'|]|] eqn:Hi; try apply IH.
  - destruct remaining as [|[|k]]; try done; apply IH.
  - intros [= ->]. eauto.
Qed.

Lemma all_react_not_pending ps order values remaining j e :
  j ∈ order → ps !! j = Some (Rejected e) →
  all_react ps order values remaining ≠ Pending.
Proof.
  revert values remaining.
  induction order as [|i rest IH]; intros values remaining Hj Hrej;
    [by apply elem_of_nil in Hj|].
  simpl. destruct (decide (i = j)) as [->|Hij]; [by rewrite Hrej|].
  apply elem_of_cons in Hj as [->|Hj]; [done|].
  destruct (ps !! i) as [[x|e'|]|]; try done; try by apply IH.
  destruct remaining as [|[|k]]; try done; by apply IH.
Qed.

Lemma all_fulfilled_fmap ps :
  (∀ i, i < length ps → fulfilled_at ps i) → ∃ vs, ps = Fulfilled <$> vs.
Proof.
  induction ps as [|p ps IH]; intros H; [by exists []|].
  destruct IH as [vs ->].
  { intros i Hi. apply (H (S i)). simpl. lia. }
  specialize (H 0 ltac:(simpl; lia)). unfold fulfilled_at in H. simpl in H.
  destruct p as [v| |]; try done. by exists (v :: vs).
Qed.

Lemma omap_id_Some vs : omap id (Some <$> vs) = vs.
Proof. induction vs as [|v vs IH]; simpl; [done|]. f_equal. exact IH. Qed.

Lemma Promise_all_fmap_Fulfilled named vs :
  Promise_all named (Fulfilled <$> vs) = Fulfilled vs.
Proof.
  unfold Promise_all. destruct vs as [|v vs]; [done|].
  change (Fulfilled <$> v :: vs) with (Fulfilled v :: (Fulfilled <$> vs)).
  change (Fulfilled v :: (Fulfilled <$> vs)) with (Fulfilled <$> v :: vs).
  set (n := length (Fulfilled <$> v :: vs)).
  assert (Hn : n = length (v :: vs)) by (unfold n; by rewrite length_fmap).
  pose proof (all_react_fulfilled (v :: vs) (settle_order n named)
                (replicate n None)) as Hreact.
  rewrite settle_order_length in Hreact. rewrite Hreact.
  - by rewrite omap_id_Some.
  - apply settle_order_NoDup.
  - intros Hnil. pose proof (settle_order_length n named) as Hl.
    rewrite Hnil, Hn in Hl. done.
  - intros i Hi%elem_of_settle_order. lia.
  - rewrite length_replicate. done.
  - intros j Hj Hnot. exfalso. apply Hnot, elem_of_settle_order. lia.
Qed.

(** [Promise.all] fulfils exactly when every promise is fulfilled, and then
    with the values in the order of the promises. *)
Lemma Promise_all_Fulfilled named ps vs :
  Promise_all named ps = Fulfilled vs ↔ ps = Fulfilled <$> vs.
Proof.
  split; [|intros ->; apply Promise_all_fmap_Fulfilled].
  intros Hall.
  assert (∃ ws, ps = Fulfilled <$> ws) as [ws ->].
  { destruct ps as [|p ps]; [by exists []|].
    apply all_fulfilled_fmap. intros i Hi.
    unfold Promise_all in Hall.
    set (n := length (p :: ps)) in *.
    destruct (all_react (p :: ps) (settle_order n named) (replicate n None) n)
      as [values|e|] eqn:Hreact; try done.
    apply all_react_counts in Hreact as [_ Hcount].
    destruct (decide (fulfilled_at (p :: ps) i)) as [|Hno]; [done|].
    exfalso.
    assert (length (filter (fulfilled_at (p :: ps)) (settle_order n named))
            < length (settle_order n named)) as Hlt.
    { apply (length_filter_lt _ _ i); [|done].
      apply elem_of_settle_order. done. }
    rewrite settle_order_length in Hlt. lia. }
  rewrite Promise_all_fmap_Fulfilled in Hall. by injection Hall as ->.
Qed.

(** [Promise.all] rejects exactly when some promise is rejected. *)
Lemma Promise_all_Rejected named ps :
  (∃ e, Promise_all named ps = Rejected e) ↔ (∃ i e, ps !! i = Some (Rejected e)).
Proof.
  split.
  - intros [e Hall]. unfold Promise_all in Hall.
    destruct ps as [|p ps]; [done|].
    set (n := length (p :: ps)) in *.
    destruct (all_react (p :: ps) (settle_order n named) (replicate n None) n)
      as [values|e'|] eqn:Hreact; try done.
    injection Hall as ->. apply all_react_rejection_source in Hreact as [i Hi].
    by exists i, e.
  - intros (i & e & Hi).
    destruct (Promise_all named ps) as [vs|e'|] eqn:Hall; [| by eauto |].
    + apply Promise_all_Fulfilled in Hall as ->.
      rewrite list_lookup_fmap in Hi. by destruct (vs !! i).
    + exfalso. unfold Promise_all in Hall.
      destruct ps as [|p ps]; [done|].
      set (n := length (p :: ps)) in *.
      destruct (all_react (p :: ps) (settle_order n named) (replicate n None) n)
        as [values|e'|] eqn:Hreact; try done.
      revert Hreact. eapply all_react_not_pending; [|exact Hi].
      apply elem_of_settle_order. by apply lookup_lt_Some in Hi.
Qed.

End All.

Lemma agree_sym {A} (p q : promise A) : agree p q → agree q p.
Proof. by destruct p, q. Qed.

Lemma Forall2_agree_fulfilled {A} (vs : list A) (qs : list (promise A)) :
  Forall2 agree (Fulfilled <$> vs) qs → qs = Fulfilled <$> vs.
Proof.
  revert qs. induction vs as [|v vs IH]; intros qs H.
  - by apply Forall2_nil_inv_l in H as ->.
  - apply Forall2_cons_inv_l in H as (q & qs' & Hq & Hqs & ->).
    rewrite (IH _ Hqs). destruct q; simpl in Hq; try done. by subst.
Qed.

(** The outcome of [Promise.all] does not depend on the order in which the
    promises settle, but for which rejection is passed on. *)
Lemma Promise_all_agree {A} named named' (ps qs : list (promise A)) :
  Forall2 agree ps qs → agree (Promise_all named ps) (Promise_all named' qs).
Proof.
  intros H.
  assert (Hrej : ∀ n n' (ps qs : list (promise A)) e,
            Forall2 agree ps qs → Promise_all n ps = Rejected e →
            ∃ e', Promise_all n' qs = Rejected e').
  { intros n n' ps' qs' e H' Hall. apply Promise_all_Rejected.
    assert (∃ e, Promise_all n ps' = Rejected e) as (i & e0 & Hi)%Promise_all_Rejected
      by eauto.
    destruct (Forall2_lookup_l _ _ _ _ _ H' Hi) as (q & Hq & Hag).
    destruct q; try done. eauto. }
  assert (Hful : ∀ n n' (ps qs : list (promise A)) vs,
            Forall2 agree ps qs → Promise_all n ps = Fulfilled vs →
            Promise_all n' qs = Fulfilled vs).
  { intros n n' ps' qs' vs H' ->%Promise_all_Fulfilled.
    apply Promise_all_Fulfilled. by apply Forall2_agree_fulfilled. }
  assert (H' : Forall2 agree qs ps).
  { apply Forall2_flip. eapply Forall2_impl; [exact H|]. apply agree_sym. }
  destruct (Promise_all named ps) as [vs|e|] eqn:Hp.
  - by rewrite (Hful _ named' _ _ _ H Hp).
  - by destruct (Hrej _ named' _ _ _ H Hp) as [e' ->].
  - destruct (Promise_all named' qs) as [ws|e|] eqn:Hq; [| |done].
    + by rewrite (Hful _ named _ _ _ H' Hq) in Hp.
    + by destruct (Hrej _ named _ _ _ H' Hq) as [e' He']; rewrite He' in Hp.
Qed.

End PromiseFacts.

(** ** The Schema Resolver *)

Lemma fmap_eq_Forall2 {A B C} (f : A → C) (g : B → C) (l : list A) (k : list B) :
  f <$> l = g <$> k ↔ Forall2 (λ x y, f x = g y) l k.
Proof.
  split.
  - revert k. induction l as [|x l IH]; intros [|y k] H; try done.
    injection H as Hxy H. constructor; [done|by apply IH].
  - induction 1 as [|x y l k Hxy _ IH]; [done|]. rewrite !fmap_cons. by f_equal.
Qed.


Lemma classify_Component type : classify type = Component ↔ type = JStr "component".
Proof.
  destruct type as [| | | |s| |]; simpl; try done.
  repeat case_bool_decide; naive_solver.
Qed.



Section ResolverFacts.

Variable net : string → axios_result.
Variable sched : list string → list nat.
Variable config_url : jsval.

Local Abbreviation fetch := (fetchComponentFields net sched config_url).


(** The two blocks, as texts. *)
Lemma media_selection_text field :
  media_selection field = field +:+ " {
      data {
        attributes {
          url
        }
      }
    }".
Proof. reflexivity. Qed.

Lemma component_selection_text field fields :
  component_selection field fields = field +:+ " {
      " +:+ Js.join "
      " fields +:+ "
    }".
Proof. reflexivity. Qed.


End ResolverFacts.


(** *** The bound on the depth

    A resolution that has fulfilled within a bound on the depth fulfils with
    the same value within every larger bound: the bound decides only whether
    a result is reached, not which. *)

Section Depth.

Variable net : string → axios_result.
Variable sched : list string → list nat.
Variable config_url : jsval.

Local Abbreviation fetch := (fetchComponentFields net sched config_url).

Lemma resolve_field_deeper fetch1 fetch2 attributes field selection :
  (∀ component fields,
     (fetch1 config_url component).1 = Fulfilled fields →
     (fetch2 config_url component).1 = Fulfilled fields) →
  (resolve_field config_url fetch1 attributes field).1 = Fulfilled selection →
  (resolve_field config_url fetch2 attributes field).1 = Fulfilled selection.
Proof.
  intros Hfetch. unfold resolve_field.
  destruct (descriptor ← get attributes field; get descriptor "type")
    as [type|e]; [|done].
  destruct (classify type); [done| |done].
  destruct (descriptor ← get attributes field; get descriptor "component")
    as [component|e]; [|done].
  simpl. destruct (fetch1 config_url component).1 as [[fields|]| |] eqn:H1; try done.
  by rewrite (Hfetch _ _ H1).
Qed.

Lemma parseFields_with_deeper fetch1 fetch2 attributes selections :
  (∀ component fields,
     (fetch1 config_url component).1 = Fulfilled fields →
     (fetch2 config_url component).1 = Fulfilled fields) →
  (parseFields_with sched config_url fetch1 attributes).1 = Fulfilled selections →
  (parseFields_with sched config_url fetch2 attributes).1 = Fulfilled selections.
Proof.
  intros Hfetch. unfold parseFields_with.
  destruct (Object_keys attributes) as [keys|e]; [|done]. simpl.
  rewrite !PromiseFacts.Promise_all_Fulfilled, <- !list_fmap_compose, !fmap_eq_Forall2.
  intros H. eapply Forall2_impl; [exact H|].
  intros field selection. by apply resolve_field_deeper.
Qed.

Lemma fetchComponentFields_value fuel url component :
  (fetch (S fuel) url component).1
  = match net (component_url url component) with
    | AxiosRejects _ => Fulfilled None
    | AxiosResponds data =>
        match (d ← get data "data"; s ← get d "schema"; get s "attributes") with
        | Throw _ => Fulfilled None
        | Normal attributes =>
            match (parseFields_with sched config_url (fetch fuel) attributes).1 with
            | Fulfilled fields => Fulfilled (Some fields)
            | Rejected e => Rejected e
            | Pending => Pending
            end
        end
    end.
Proof.
  simpl. destruct (net (component_url url component)) as [error|data]; [done|].
  by destruct (d ← get data "data"; s ← get d "schema"; get s "attributes").
Qed.

Lemma fetchComponentFields_deeper fuel url component fields :
  (fetch fuel url component).1 = Fulfilled fields →
  (fetch (S fuel) url component).1 = Fulfilled fields.
Proof.
  revert url component fields.
  induction fuel as [|fuel IH]; intros url component fields; [done|].
  rewrite !fetchComponentFields_value.
  destruct (net (component_url url component)) as [error|data]; [done|].
  destruct (d ← get data "data"; s ← get d "schema"; get s "attributes")
    as [attributes|error]; [|done].
  destruct (parseFields_with sched config_url (fetch fuel) attributes).1
    as [selections| |] eqn:Hparsed; try done.
  intros [= <-].
  by rewrite (parseFields_with_deeper _ (fetch (S fuel)) _ _ (IH config_url) Hparsed).
Qed.

Lemma fetchComponentFields_any_deeper fuel more url component fields :
  (fetch fuel url component).1 = Fulfilled fields →
  (fetch (fuel + more) url component).1 = Fulfilled fields.
Proof.
  intros H. induction more as [|more IH]; [by rewrite Nat.add_0_r|].
  rewrite Nat.add_succ_r. by apply fetchComponentFields_deeper.
Qed.

End Depth.

(** *** Two resolutions of the same schemas

    Two instances answer a resolution alike when every request the resolution
    makes of the first, for a component at its configured address, gets what
    the request for the same component at the configured address of the
    second gets from the second.  The resolutions may differ in the order
    their promises settle. *)

Section Agreement.

Variables net1 net2 : string → axios_result.
Variables sched1 sched2 : list string → list nat.
Variables url1 url2 : jsval.

Local Abbreviation answered_alike := (answered_alike net1 net2 url1 url2).

Lemma answered_alike_subseteq trace trace' :
  trace ⊆ trace' → answered_alike trace' → answered_alike trace.
Proof. intros Hsub Halike component Hin. apply Halike, Hsub, Hin. Qed.

Lemma resolve_field_agree fetch1 fetch2 attributes field :
  (∀ component,
     answered_alike (fetch1 url1 component).2 →
     agree (fetch1 url1 component).1 (fetch2 url2 component).1) →
  answered_alike (resolve_field url1 fetch1 attributes field).2 →
  agree (resolve_field url1 fetch1 attributes field).1
        (resolve_field url2 fetch2 attributes field).1.
Proof.
  intros Hfetch. unfold resolve_field.
  destruct (descriptor ← get attributes field; get descriptor "type")
    as [type|e]; [|done].
  destruct (classify type); [done| |done].
  destruct (descriptor ← get attributes field; get descriptor "component")
    as [component|e]; [|done].
  simpl. intros Halike. specialize (Hfetch component Halike).
  destruct (fetch1 url1 component).1 as [[fields1|]| |],
           (fetch2 url2 component).1 as [[fields2|]| |]; simpl in *; try done.
  by injection Hfetch as ->.
Qed.

Lemma parseFields_with_agree fetch1 fetch2 attributes :
  (∀ component,
     answered_alike (fetch1 url1 component).2 →
     agree (fetch1 url1 component).1 (fetch2 url2 component).1) →
  answered_alike (parseFields_with sched1 url1 fetch1 attributes).2 →
  agree (parseFields_with sched1 url1 fetch1 attributes).1
        (parseFields_with sched2 url2 fetch2 attributes).1.
Proof.
  intros Hfetch. unfold parseFields_with.
  destruct (Object_keys attributes) as [keys|e]; [|done]. simpl. intros Halike.
  apply PromiseFacts.Promise_all_agree.
  rewrite <- !list_fmap_compose. apply Forall2_fmap, Forall_Forall2_diag.
  apply Forall_forall. intros field Hfield. apply resolve_field_agree; [done|].
  eapply answered_alike_subseteq; [|exact Halike].
  intros ev Hev. apply list_elem_of_In, in_concat. eexists. split.
  - apply list_elem_of_In. rewrite <- list_fmap_compose.
    apply list_elem_of_fmap. by exists field.
  - by apply list_elem_of_In.
Qed.

Lemma fetchComponentFields_agree fuel component :
  answered_alike (fetchComponentFields net1 sched1 url1 fuel url1 component).2 →
  agree (fetchComponentFields net1 sched1 url1 fuel url1 component).1
        (fetchComponentFields net2 sched2 url2 fuel url2 component).1.
Proof.
  revert component. induction fuel as [|fuel IH]; intros component; [done|].
  simpl. intros Halike.
  assert (net1 (component_url url1 component) = net2 (component_url url2 component))
    as Hfirst.
  { apply Halike.
    destruct (net1 (component_url url1 component)) as [error|data]; [by left|].
    destruct (d ← get data "data"; s ← get d "schema"; get s "attributes");
      by left. }
  rewrite <- Hfirst.
  destruct (net1 (component_url url1 component)) as [error|data]; [done|].
  destruct (d ← get data "data"; s ← get d "schema"; get s "attributes")
    as [attributes|error]; [|done].
  simpl in *.
  assert (agree (parseFields_with sched1 url1
                   (fetchComponentFields net1 sched1 url1 fuel) attributes).1
                (parseFields_with sched2 url2
                   (fetchComponentFields net2 sched2 url2 fuel) attributes).1)
    as Hparsed.
  { apply parseFields_with_agree; [exact IH|].
    eapply answered_alike_subseteq; [|exact Halike].
    intros ev Hev. by right. }
  destruct (parseFields_with sched1 url1 _ attributes).1,
           (parseFields_with sched2 url2 _ attributes).1; simpl in *; try done.
  by subst.
Qed.

Lemma parseFields_agree fuel attributes :
  answered_alike (parseFields net1 sched1 url1 fuel attributes).2 →
  agree (parseFields net1 sched1 url1 fuel attributes).1
        (parseFields net2 sched2 url2 fuel attributes).1.
Proof. apply parseFields_with_agree. intros component. apply fetchComponentFields_agree. Qed.

End Agreement.

(** *** The order of the selections *)

Lemma own_keys_names props :
  Forall (λ k, array_index k = None) props.*1 → own_keys props = props.*1.
Proof.
  intros Hnames. unfold own_keys.
  assert (omap (λ k, (λ n, (n, k)) <$> array_index k) props.*1 = []) as ->.
  { induction Hnames as [|k ks Hk _ IH]; [done|]. simpl. by rewrite Hk. }
  simpl. induction Hnames as [|k ks Hk _ IH]; [done|].
  rewrite filter_cons_True by done. by f_equal.
Qed.

Lemma startsWith_refl s : Js.startsWith s s = true.
Proof.
  induction s as [|c s IH]; simpl; [done|].
  by rewrite bool_decide_eq_true_2.
Qed.

Lemma resolve_field_startsWith config_url fetch attributes field selection :
  (resolve_field config_url fetch attributes field).1 = Fulfilled selection →
  Js.startsWith field selection = true.
Proof.
  unfold resolve_field.
  destruct (descriptor ← get attributes field; get descriptor "type")
    as [type|e]; [|done].
  destruct (classify type).
  - intros [= <-]. apply JsFacts.startsWith_app.
  - destruct (descriptor ← get attributes field; get descriptor "component")
      as [component|e]; [|done].
    simpl. destruct (fetch config_url component).1 as [[fields|]| |]; try done.
    intros [= <-]. apply JsFacts.startsWith_app.
  - intros [= <-]. apply startsWith_refl.
Qed.

(** The example of the specification, with the selections as the
    specification writes them, and a schema with a field named [1]. *)
Lemma parseFields_example_not_verbatim :
  (parseFields hero_net in_key_order localhost 1 (JObj hero_attributes)).1
  ≠ Fulfilled ["title"; "image { data { attributes { url } } }"; "hero { text }"]
  ∧ (parseFields hero_net in_key_order localhost 1
       (JObj [("b", JObj [("type", JStr "string")]);
              ("1", JObj [("type", JStr "string")])])).1
    = Fulfilled ["1"; "b"].
Proof. split; [by vm_compute|by vm_compute]. Qed.

(** C1, amended.  For a schema none of whose field names is an array index,
    the selections [parseFields] fulfils with are those of the fields in
    insertion order, each beginning with the name of its field, and they are
    the same whatever the order in which the per-field promises settle.  For
    the schema with a scalar [title], a media [image] and a component [hero]
    of [ns.card], where [ns.card] resolves to [text], the result is the three
    selections below, laid out over several lines; they are the selections
    the specification writes once every run of white space is read as one
    space. *)
Theorem parseFields_insertion_order :
  (∀ net sched sched' config_url fuel props selections,
     Forall (λ k, array_index k = None) props.*1 →
     (parseFields net sched config_url fuel (JObj props)).1 = Fulfilled selections →
     Forall2
       (λ prop selection,
          (resolve_field config_url (fetchComponentFields net sched config_url fuel)
             (JObj props) prop.1).1 = Fulfilled selection
          ∧ Js.startsWith prop.1 selection = true)
       props selections
     ∧ (parseFields net sched' config_url fuel (JObj props)).1 = Fulfilled selections)
  ∧ (∀ net sched config_url fuel,
       (fetchComponentFields net sched config_url fuel config_url (JStr "ns.card")).1
       = Fulfilled (Some ["text"]) →
       let selections :=
         ["title";
          lines ["image {"; "      data {"; "        attributes {";
                 "          url"; "        }"; "      }"; "    }"];
          lines ["hero {"; "      text"; "    }"]] in
       (parseFields net sched config_url fuel (JObj hero_attributes)).1
       = Fulfilled selections
       ∧ squeeze <$> selections
         = ["title"; "image { data { attributes { url } } }"; "hero { text }"]).
Proof.
  split.
  - intros net sched sched' config_url fuel props selections Hnames Hsel. split.
    + unfold parseFields, parseFields_with in Hsel. simpl in Hsel.
      rewrite own_keys_names in Hsel by done.
      apply PromiseFacts.Promise_all_Fulfilled in Hsel.
      rewrite <- !list_fmap_compose in Hsel. apply fmap_eq_Forall2 in Hsel.
      eapply Forall2_impl; [exact Hsel|]. intros prop selection Hprop.
      split; [exact Hprop|]. eapply resolve_field_startsWith, Hprop.
    + pose proof (parseFields_agree net net sched sched' config_url config_url
                    fuel (JObj props) (λ _ _, eq_refl)) as Hagree.
      rewrite Hsel in Hagree.
      destruct (parseFields net sched' config_url fuel (JObj props)).1; try done.
      simpl in Hagree. by subst.
  - intros net sched config_url fuel Hcard. split; [|reflexivity].
    unfold parseFields, parseFields_with. simpl Object_keys. cbv iota beta.
    apply PromiseFacts.Promise_all_Fulfilled.
    change (own_keys hero_attributes) with ["title"; "image"; "hero"].
    rewrite !fmap_cons. unfold resolve_field at 1 2. simpl.
    unfold resolve_field. simpl. rewrite Hcard. reflexivity.
Qed.

Lemma parseFields_insertion_order_witness :
  (Forall2
     (λ prop selection,
        (resolve_field localhost (fetchComponentFields hero_net (λ _, [2; 0]) localhost 1)
           (JObj hero_attributes) prop.1).1 = Fulfilled selection
        ∧ Js.startsWith prop.1 selection = true)
     hero_attributes
     ["title"; media_selection "image"; component_selection "hero" ["text"]]
   ∧ (parseFields hero_net in_key_order localhost 1 (JObj hero_attributes)).1
     = Fulfilled ["title"; media_selection "image"; component_selection "hero" ["text"]])
  ∧ (parseFields hero_net (λ _, [2; 0]) localhost 1 (JObj hero_attributes)).1
    = Fulfilled ["title"; media_selection "image"; component_selection "hero" ["text"]].
Proof.
  split.
  - apply (proj1 parseFields_insertion_order hero_net (λ _, [2; 0]) in_key_order
             localhost 1 hero_attributes).
    + repeat constructor.
    + by vm_compute.
  - apply (proj2 parseFields_insertion_order hero_net (λ _, [2; 0]) localhost 1).
    by vm_compute.
Defined.

(** *** Failures *)

Section Failures.

Variable net : string → axios_result.
Variable sched : list string → list nat.
Variable config_url : jsval.

Local Abbreviation fetch := (fetchComponentFields net sched config_url).

(** A rejected request is logged with the component and answered with
    [null], after the one request. *)
Lemma fetch_rejected_request fuel url component error :
  net (component_url url component) = AxiosRejects error →
  fetch (S fuel) url component
  = (Fulfilled None,
     [HttpGet (component_url url component);
      ConsoleError (Some ("Error fetching component " +:+ ToString component +:+ ":"))
        error]).
Proof. intros Hnet. simpl. by rewrite Hnet. Qed.

(** So is a body in which [data] or [schema] cannot be read. *)
Lemma fetch_unreadable_body fuel url component data error :
  net (component_url url component) = AxiosResponds data →
  (d ← get data "data"; s ← get d "schema"; get s "attributes") = Throw error →
  fetch (S fuel) url component
  = (Fulfilled None,
     [HttpGet (component_url url component);
      ConsoleError (Some ("Error fetching component " +:+ ToString component +:+ ":"))
        error]).
Proof. intros Hnet Hread. simpl. by rewrite Hnet, Hread. Qed.

(** A field whose component resolves to [null] makes [parseFields] reject. *)
Lemma parseFields_rejects_on_null fuel props field component :
  field ∈ own_keys props →
  get (lookup_prop field props) "type" = Normal (JStr "component") →
  get (lookup_prop field props) "component" = Normal component →
  (fetch fuel config_url component).1 = Fulfilled None →
  ∃ e, (parseFields net sched config_url fuel (JObj props)).1 = Rejected e.
Proof.
  intros Hfield Htype Hcomponent Hnull.
  unfold parseFields, parseFields_with. simpl.
  apply PromiseFacts.Promise_all_Rejected.
  apply list_elem_of_lookup in Hfield as [i Hi].
  exists i, (TypeError "Cannot read properties of null (reading 'join')").
  rewrite <- list_fmap_compose, list_lookup_fmap, Hi. simpl.
  unfold resolve_field. simpl. rewrite Htype. simpl. rewrite Hcomponent. simpl.
  by rewrite Hnull.
Qed.

End Failures.

(** C2, on the code.  With the schema of [sections.hero] and an instance that
    answers 404 for the component [ns.card] of its field [hero]: the nested
    fetch yields [null], the sibling field [title] has its selection, and
    still both [parseFields] and the fetch of [sections.hero] reject, in
    whatever order the promises settle, so that no selection is returned. *)
Theorem nested_failure_loses_siblings (sched : list string → list nat) (fuel : nat) :
  (fetchComponentFields hero_net_without_card sched localhost (S fuel)
     localhost (JStr "ns.card")).1 = Fulfilled None
  ∧ (resolve_field localhost
       (fetchComponentFields hero_net_without_card sched localhost (S fuel))
       (JObj hero_attributes) "title").1 = Fulfilled "title"
  ∧ (∃ e, (parseFields hero_net_without_card sched localhost (S fuel)
             (JObj hero_attributes)).1 = Rejected e)
  ∧ (∃ e, (fetchComponentFields hero_net_without_card sched localhost (S (S fuel))
             localhost (JStr "sections.hero")).1 = Rejected e).
Proof.
  assert (∃ e, (parseFields hero_net_without_card sched localhost (S fuel)
                  (JObj hero_attributes)).1 = Rejected e) as [e He].
  { apply (parseFields_rejects_on_null _ _ _ _ _ "hero" (JStr "ns.card"));
      [|done..].
    change (own_keys hero_attributes) with ["title"; "image"; "hero"].
    set_solver. }
  split_and!; [done | done | by exists e |].
  exists e. unfold parseFields in He.
  change (fetchComponentFields hero_net_without_card sched localhost (S (S fuel))
            localhost (JStr "sections.hero")).1
    with (match (parseFields_with sched localhost
                   (fetchComponentFields hero_net_without_card sched localhost (S fuel))
                   (JObj hero_attributes)).1 with
          | Fulfilled fields => Fulfilled (Some fields)
          | Rejected e => Rejected e
          | Pending => Pending
          end).
  by rewrite He.
Qed.

(** C6, on the code.  A response whose [schema] has no [attributes] is
    neither logged nor answered with [null]: the promise of
    [fetchComponentFields] rejects with the error of [Object.keys], the
    request being the only event. *)
Theorem fetch_without_attributes_rejects (sched : list string → list nat)
    (fuel : nat) (url component : jsval) :
  fetchComponentFields net_without_attributes sched localhost (S fuel) url component
  = (Rejected (TypeError "Cannot convert undefined or null to object"),
     [HttpGet (component_url url component)]).
Proof. reflexivity. Qed.

(** *** The address of the nested requests *)

Section NestedRequests.

Variable net : string → axios_result.
Variable sched : list string → list nat.
Variable config_url : jsval.

Local Abbreviation fetch := (fetchComponentFields net sched config_url).





End NestedRequests.


(** *** The texts of a run *)

Section Determinism.

Variables net1 net2 : string → axios_result.
Variables sched1 sched2 : list string → list nat.
Variable prettier_format : string → string → promise string.

(** C10.  Two runs for the same component identifier, whose instances answer
    alike for every component the first run fetches, produce the same names
    and the same four texts, or both fail, or both never end: whatever the
    configured addresses, the order in which the promises settle, and the
    state of the world each run starts in. *)
Theorem generate_deterministic (fuel : nat) (c1 c2 : config) (w1 w2 : world) :
  component c1 = component c2 →
  (∀ fetched,
     HttpGet (component_url (url c1) fetched)
     ∈ (fetchComponentFields net1 sched1 (url c1) fuel (url c1) (component c1)).2 →
     net1 (component_url (url c1) fetched) = net2 (component_url (url c2) fetched)) →
  same_result (generate net1 sched1 prettier_format fuel c1 w1).1
              (generate net2 sched2 prettier_format fuel c2 w2).1.
Proof.
  intros Hcomponent Hnet. unfold generate. rewrite <- Hcomponent.
  pose proof (fetchComponentFields_agree net1 net2 sched1 sched2 (url c1) (url c2)
                fuel (component c1) Hnet) as Hagree.
  unfold mbind, io_bind, bind, await. simpl.
  destruct (fetchComponentFields net1 sched1 (url c1) fuel (url c1) (component c1)).1
    as [attributes1| |],
    (fetchComponentFields net2 sched2 (url c2) fuel (url c2) (component c1)).1
    as [attributes2| |]; simpl in *; try done.
  subst attributes2.
  destruct (processString (component c1)) as [names|e]; simpl; [|done].
  unfold render, mbind, io_bind, bind, formatCode, await. simpl.
  destruct attributes1 as [fields|]; simpl; [|done].
  repeat match goal with
         | |- context [prettier_format ?code ?parser] =>
             destruct (prettier_format code parser); simpl; try done
         end.
Qed.

End Determinism.

Lemma generate_deterministic_witness :
  same_result
    (generate hero_net_mirrored in_key_order (λ code _, Fulfilled code) 2
       {| component := JStr "sections.hero"; url := JStr "http://cms.example";
          dir := JStr "" |}
       {| fs := {| dirs := ∅; files := ∅ |}; events := []; writes := [] |}).1
    (generate hero_net (λ _, [2; 1; 0]) (λ code _, Fulfilled code) 2
       {| component := JStr "sections.hero"; url := localhost; dir := JStr "site" |}
       {| fs := {| dirs := {["/"]}; files := ∅ |}; events := []; writes := [] |}).1.
Proof.
  apply (generate_deterministic hero_net_mirrored hero_net); [reflexivity|].
  intros component _. reflexivity.
Defined.

(** ** Paths *)

Module PathFacts.

Import JsFacts.

Lemma app_empty_r s : s +:+ "" = s.
Proof.
  induction s as [|c s IH]; [done|].
  change (String c (s +:+ "") = String c s). by f_equal.
Qed.

Lemma join_cons_cons sep x y r :
  Js.join sep (x :: y :: r) = x +:+ sep +:+ Js.join sep (y :: r).
Proof. done. Qed.

Lemma join_ne_empty sep segs :
  segs ≠ [] → Forall (λ s, s ≠ "") segs → Js.join sep segs ≠ "".
Proof.
  intros Hne Hall. destruct Hall as [|x r Hx Hr]; [done|].
  destruct r as [|y r]; [done|]. rewrite join_cons_cons.
  by destruct x.
Qed.

Lemma normal_segment_ne_empty s : normal_segment s → s ≠ "".
Proof. by intros [? _]. Qed.

Lemma normal_segments_ne_empty segs :
  Forall normal_segment segs → Forall (λ s, s ≠ "") segs.
Proof.
  intros H. eapply Forall_impl; [exact H|]. intros s. apply normal_segment_ne_empty.
Qed.

Lemma normal_segments_no_slash segs :
  Forall normal_segment segs → Forall (λ s, Js.has_char Js.is_slash s = false) segs.
Proof. intros H. eapply Forall_impl; [exact H|]. by intros s (_ & _ & _ & ?). Qed.

Lemma split_rel_path segs :
  segs ≠ [] → Forall normal_segment segs →
  Js.split Js.is_slash (rel_path segs) = segs.
Proof.
  intros Hne Hall. apply (split_join Js.is_slash "/"%char); [done|done|].
  by apply normal_segments_no_slash.
Qed.

Lemma split_join_concat l :
  l ≠ [] →
  Js.split Js.is_slash (Js.join "/" l) = concat (Js.split Js.is_slash <$> l).
Proof.
  induction l as [|x r IH]; [done|]. intros _.
  destruct r as [|y r].
  - simpl. by rewrite app_nil_r.
  - rewrite join_cons_cons.
    change ("/" +:+ Js.join "/" (y :: r)) with (String "/"%char (Js.join "/" (y :: r))).
    rewrite split_app_sep by done. rewrite IH by done. done.
Qed.

Lemma norm_step_normal b kept s :
  normal_segment s → Path.norm_step b kept s = s :: kept.
Proof.
  intros (H1 & H2 & H3 & _). unfold Path.norm_step.
  by rewrite !bool_decide_eq_false_2.
Qed.

Lemma norm_segments_normal b kept segs :
  Forall normal_segment segs →
  Path.norm_segments b kept segs = rev segs ++ kept.
Proof.
  intros Hall. revert kept. unfold Path.norm_segments.
  induction Hall as [|s r Hs _ IH]; intros kept; [done|].
  simpl. rewrite norm_step_normal by done. rewrite IH.
  by rewrite <- app_assoc.
Qed.

Lemma norm_segments_rel b kept segs :
  Forall normal_segment segs →
  Path.norm_segments b kept (Js.split Js.is_slash (rel_path segs)) = rev segs ++ kept.
Proof.
  intros Hall. destruct segs as [|s r]; [done|].
  rewrite split_rel_path by done. by apply norm_segments_normal.
Qed.

Lemma norm_segments_app b kept l k :
  Path.norm_segments b kept (l ++ k)
  = Path.norm_segments b (Path.norm_segments b kept l) k.
Proof. apply foldl_app. Qed.

Lemma rel_path_empty segs :
  Forall normal_segment segs → rel_path segs = "" → segs = [].
Proof.
  intros Hall Hempty. destruct segs as [|s r]; [done|].
  exfalso. revert Hempty. apply join_ne_empty; [done|].
  by apply normal_segments_ne_empty.
Qed.

(** The parts between the first and the last, each a relative path of normal
    segments, the empty ones dropped. *)
Lemma norm_segments_parts b kept parts :
  Forall (Forall normal_segment) parts →
  Path.norm_segments b kept
    (concat (Js.split Js.is_slash <$> filter (λ s, s ≠ "") (rel_path <$> parts)))
  = rev (concat parts) ++ kept.
Proof.
  intros Hall. revert kept.
  induction Hall as [|segs rest Hsegs _ IH]; intros kept; [done|].
  rewrite fmap_cons. destruct (decide (rel_path segs = "")) as [Hempty|Hfull].
  - rewrite filter_cons_False by (by intros ?).
    rewrite (rel_path_empty segs) by done. simpl. apply IH.
  - rewrite filter_cons_True by done. rewrite fmap_cons. simpl concat.
    rewrite norm_segments_app, norm_segments_rel by done.
    rewrite IH, rev_app_distr. by rewrite <- app_assoc.
Qed.

Lemma validate_strings l : Path.validate (JStr <$> l) = Normal l.
Proof.
  induction l as [|s l IH]; [done|].
  change (Path.validate (JStr <$> s :: l))
    with (r ← Path.validate (JStr <$> l); Normal (s :: r)).
  by rewrite IH.
Qed.

(** [path.join] of an absolute path of normal segments, relative paths of
    normal segments (possibly empty) and a last normal segment. *)
Lemma join_abs segs parts lastseg :
  Forall normal_segment segs → Forall (Forall normal_segment) parts →
  normal_segment lastseg →
  Path.join (JStr (abs_path segs) :: (JStr <$> (rel_path <$> parts)) ++ [JStr lastseg])
  = Normal (abs_path (segs ++ concat parts ++ [lastseg])).
Proof.
  intros Hsegs Hparts Hlast. unfold Path.join.
  change [JStr lastseg] with (JStr <$> [lastseg]). rewrite <- fmap_app.
  rewrite <- (fmap_cons JStr). rewrite validate_strings.
  unfold mbind, completion_bind, cbind.
  rewrite filter_cons_True by done. rewrite filter_app.
  rewrite (filter_cons_True _ lastseg) by (by apply normal_segment_ne_empty).
  rewrite filter_nil. cbv beta iota.
  set (middle := filter (λ s, s ≠ "") (rel_path <$> parts)).
  set (joined := Js.join "/" (abs_path segs :: middle ++ [lastseg])).
  assert (Hsplit : Js.split Js.is_slash joined
            = ("" :: Js.split Js.is_slash (rel_path segs))
              ++ concat (Js.split Js.is_slash <$> middle) ++ [lastseg]).
  { unfold joined. rewrite split_join_concat by done.
    rewrite fmap_cons, fmap_app. simpl concat. rewrite concat_app. simpl.
    rewrite (split_no_sep _ lastseg) by (by destruct Hlast as (_ & _ & _ & ?)).
    by rewrite app_nil_r. }
  assert (∃ t, joined = String "/"%char t) as [t Ht].
  { unfold joined. destruct (middle ++ [lastseg]) as [|y r] eqn:Hm.
    - by destruct middle.
    - rewrite join_cons_cons. by eexists. }
  unfold Path.normalize.
  rewrite bool_decide_eq_false_2 by (by rewrite Ht).
  replace (Js.startsWith "/" joined) with true by (by rewrite Ht).
  replace (Path.ends_with_slash joined) with false; last first.
  { unfold Path.ends_with_slash. rewrite Hsplit.
    rewrite app_assoc, last_snoc.
    rewrite (bool_decide_eq_false_2 (lastseg = ""));
      [done|by apply normal_segment_ne_empty]. }
  rewrite Hsplit. simpl negb.
  rewrite norm_segments_app. simpl app.
  change (Path.norm_segments false [] ("" :: ?l)) with (Path.norm_segments false [] l).
  rewrite norm_segments_rel by done. rewrite norm_segments_app.
  unfold middle. rewrite norm_segments_parts by done.
  rewrite norm_segments_normal by (by constructor).
  simpl rev. rewrite app_nil_r.
  assert (rev (rev (concat parts) ++ rev segs) ++ [lastseg]
          = segs ++ concat parts ++ [lastseg]) as ->.
  { rewrite rev_app_distr, !rev_involutive. by rewrite <- app_assoc. }
  rewrite bool_decide_eq_false_2; [by rewrite app_empty_r|].
  apply join_ne_empty.
  - intros Hnil. apply (f_equal length) in Hnil. rewrite !length_app in Hnil.
    simpl in Hnil. lia.
  - apply normal_segments_ne_empty. rewrite !Forall_app. split_and!; [done| |by constructor].
    by apply Forall_concat.
Qed.

Lemma length_append s t :
  String.length (s +:+ t) = String.length s + String.length t.
Proof.
  induction s as [|c s IH]; [done|].
  change (S (String.length (s +:+ t)) = S (String.length s + String.length t)).
  by rewrite IH.
Qed.

Lemma is_slash_toLowerCase c : Js.is_slash (Js.toLowerCase c) = Js.is_slash c.
Proof. by destruct c as [[] [] [] [] [] [] [] []]. Qed.

Lemma has_char_slash_lowerFirst s :
  Js.has_char Js.is_slash (Js.lowerFirst s) = Js.has_char Js.is_slash s.
Proof. destruct s as [|c s]; [done|]. simpl. by rewrite is_slash_toLowerCase. Qed.

Lemma length_lowerFirst s : String.length (Js.lowerFirst s) = String.length s.
Proof. by destruct s. Qed.

(** A file name made of a name without slash and an extension. *)
Lemma normal_file name ext :
  Js.has_char Js.is_slash name = false → Js.has_char Js.is_slash ext = false →
  3 ≤ String.length ext → normal_segment (name +:+ ext).
Proof.
  intros Hname Hext Hlen.
  assert (3 ≤ String.length (name +:+ ext)) as Hlen' by (rewrite length_append; lia).
  split_and!; try (intros Heq; rewrite Heq in Hlen'; simpl in Hlen'; lia).
  by rewrite has_char_app, Hname, Hext.
Qed.

Lemma rel_path_inj segs segs' :
  Forall normal_segment segs → Forall normal_segment segs' →
  rel_path segs = rel_path segs' → segs = segs'.
Proof.
  intros Hsegs Hsegs' Heq.
  destruct segs as [|s r], segs' as [|s' r']; [done| | |].
  - symmetry in Heq. by apply rel_path_empty in Heq.
  - by apply rel_path_empty in Heq.
  - rewrite <- (split_rel_path (s :: r)), <- (split_rel_path (s' :: r')) by done.
    by rewrite Heq.
Qed.

Lemma abs_path_inj segs segs' :
  Forall normal_segment segs → Forall normal_segment segs' →
  abs_path segs = abs_path segs' → segs = segs'.
Proof.
  intros Hsegs Hsegs' Heq. apply rel_path_inj; [done..|].
  unfold abs_path in Heq. by injection Heq.
Qed.

Lemma split_abs_path segs :
  segs ≠ [] → Forall normal_segment segs →
  Js.split Js.is_slash (abs_path segs) = "" :: segs.
Proof.
  intros Hne Hall. unfold abs_path.
  change ("/" +:+ Js.join "/" segs) with (String "/"%char (rel_path segs)).
  simpl. by rewrite split_rel_path.
Qed.

Lemma prefix_path_abs segs k :
  Path.prefix_path ("" :: segs) (S k) = abs_path (take k segs).
Proof.
  unfold Path.prefix_path. simpl take.
  destruct (take k segs) as [|s r]; [done|].
  rewrite join_cons_cons. done.
Qed.

(** The directories [mkdir -p] goes through. *)
Lemma elem_of_ancestors segs p :
  Forall normal_segment segs →
  p ∈ Path.ancestors (abs_path segs) ↔ ∃ k, k ≤ length segs ∧ p = abs_path (take k segs).
Proof.
  intros Hall. unfold Path.ancestors. destruct segs as [|s r].
  { simpl. rewrite !elem_of_cons, elem_of_nil. split.
    - intros [->|[->|[]]]; by exists 0.
    - intros (k & _ & ->). left. by destruct k. }
  rewrite split_abs_path by done.
  rewrite list_elem_of_fmap. setoid_rewrite elem_of_seq. split.
  - intros (k & -> & Hk). destruct k as [|k]; [lia|].
    exists k. split; [simpl in *; lia|]. apply prefix_path_abs.
  - intros (k & Hk & ->). exists (S k). split; [by rewrite prefix_path_abs|].
    simpl in *. lia.
Qed.

Lemma dirname_abs_snoc segs x :
  Forall normal_segment segs → normal_segment x →
  Path.dirname (abs_path (segs ++ [x])) = abs_path segs.
Proof.
  intros Hall Hx. unfold Path.dirname.
  rewrite split_abs_path; [|by destruct segs|by apply Forall_app; split; [|constructor]].
  simpl length. rewrite length_app. simpl.
  replace (length segs + 1 - 0) with (S (length segs)) by lia.
  rewrite prefix_path_abs. by rewrite take_app_length.
Qed.

End PathFacts.

(** ** The file system *)

Module FsFacts.

Lemma bind_Ok {A B} (m : io A) (k : A → io B) w a w' :
  m w = (Ok a, w') → (m ≫= k) w = k a w'.
Proof. intros H. unfold mbind, io_bind, bind. by rewrite H. Qed.

Lemma bind_Err {A B} (m : io A) (k : A → io B) w e w' :
  m w = (Err e, w') → (m ≫= k) w = (Err e, w').
Proof. intros H. unfold mbind, io_bind, bind. by rewrite H. Qed.

Lemma bind_Hang {A B} (m : io A) (k : A → io B) w w' :
  m w = (Hang, w') → (m ≫= k) w = (Hang, w').
Proof. intros H. unfold mbind, io_bind, bind. by rewrite H. Qed.

Lemma lift_Normal {A} (a : A) w : lift (Normal a) w = (Ok a, w).
Proof. done. Qed.

Lemma existsSync_eq p w :
  existsSync p w = (Ok (is_dir (fs w) p || is_file (fs w) p), w).
Proof. done. Qed.

Lemma is_file_None f p : is_file f p = false ↔ files f !! p = None.
Proof.
  unfold is_file. rewrite bool_decide_eq_false, <- eq_None_not_Some. done.
Qed.

Lemma is_file_Some f p content : files f !! p = Some content → is_file f p = true.
Proof. intros H. unfold is_file. apply bool_decide_eq_true. by rewrite H. Qed.

Lemma is_dir_true f p : is_dir f p = true ↔ p ∈ dirs f.
Proof. unfold is_dir. apply bool_decide_eq_true. Qed.

Lemma is_dir_false f p : is_dir f p = false ↔ p ∉ dirs f.
Proof. unfold is_dir. apply bool_decide_eq_false. Qed.

Lemma is_dir_mk f fl p : is_dir {| dirs := dirs f; files := fl |} p = is_dir f p.
Proof. done. Qed.

Lemma is_file_mk f d p : is_file {| dirs := d; files := files f |} p = is_file f p.
Proof. done. Qed.

Lemma is_file_insert_ne d fl p q x :
  q ≠ p →
  is_file {| dirs := d; files := <[q := x]> fl |} p
  = is_file {| dirs := d; files := fl |} p.
Proof. intros Hne. unfold is_file. simpl. by rewrite lookup_insert_ne. Qed.








Lemma reads_only_bind {A B} (m : io A) (k : A → io B) :
  reads_only m → (∀ a, reads_only (k a)) → reads_only (m ≫= k).
Proof.
  intros Hm Hk w. unfold mbind, io_bind, bind. specialize (Hm w).
  destruct (m w) as [[a|e|] w']; simpl in *; [|done..].
  destruct (Hk a w') as [-> ->]. done.
Qed.

Lemma reads_only_ret {A} (a : A) : reads_only (ret a).
Proof. done. Qed.

Lemma reads_only_throw {A} e : reads_only (@throw A e).
Proof. done. Qed.

Lemma reads_only_lift {A} (c : completion A) : reads_only (lift c).
Proof. by destruct c. Qed.

Lemma reads_only_await {A} (p : promise A * list event) : reads_only (await p).
Proof. done. Qed.

End FsFacts.

(** ** The Artifact Emitter *)

Section EmitterFacts.

Import FsFacts.

Variable net : string → axios_result.
Variable sched : list string → list nat.
Variable prettier_format : string → string → promise string.

Lemma generate_reads_only fuel c :
  reads_only (generate net sched prettier_format fuel c).
Proof.
  unfold generate, render, formatCode.
  repeat first
    [ apply reads_only_bind; [|intros ?]
    | apply reads_only_await | apply reads_only_lift | apply reads_only_ret
    | apply reads_only_throw
    | match goal with |- reads_only (match ?x with _ => _ end) => destruct x end ].
Qed.

Lemma generate_Ok fuel c w names texts w' :
  generate net sched prettier_format fuel c w = (Ok (names, texts), w') →
  processString (component c) = Normal names
  ∧ barrelLine texts = indexCode (name names).
Proof.
  unfold generate, render, formatCode, mbind, io_bind, bind, await, lift. simpl.
  destruct (fetchComponentFields net sched (url c) fuel (url c) (component c)).1
    as [attributes| |]; simpl; try done.
  destruct (processString (component c)) as [names'|e]; simpl; [|done].
  destruct attributes as [fields|]; simpl; [|done].
  repeat match goal with
         | |- context [prettier_format ?code ?parser] =>
             destruct (prettier_format code parser); simpl; try done
         end.
  unfold ret. intros ?. by simplify_eq.
Qed.

Lemma appendFileSync_new p data w :
  is_dir (fs w) p = false → is_dir (fs w) (Path.dirname p) = true →
  files (fs w) !! p = None →
  appendFileSync p data w
  = (Ok (),
     {| fs := {| dirs := dirs (fs w); files := <[p := data]> (files (fs w)) |};
        events := events w;
        writes := writes w ++ [AppendFile p data] |}).
Proof.
  intros Hdir Hparent Hfile. unfold appendFileSync.
  by rewrite Hdir, Hparent, Hfile.
Qed.

(** What [emit] does where nothing exists at the four paths. *)
Lemma emit_fresh sd sfd idx nm texts w P1 P2 P3 :
  fragmentFilePath sfd nm = Normal P1 →
  componentFilePath sd nm = Normal P2 →
  componentTypesFilePath sd nm = Normal P3 →
  NoDup [P1; P2; P3; idx] →
  Forall (λ p, is_dir (fs w) p = false ∧ files (fs w) !! p = None
               ∧ is_dir (fs w) (Path.dirname p) = true) [P1; P2; P3; idx] →
  emit sd sfd idx nm texts w
  = (Ok (),
     {| fs := {| dirs := dirs (fs w);
                 files := <[idx := barrelLine texts]>
                            (<[P3 := formattedComponentTypesCode texts]>
                               (<[P2 := formattedComponentCode texts]>
                                  (<[P1 := fragmentCode texts]> (files (fs w))))) |};
        events := events w;
        writes := writes w ++ [AppendFile P1 (fragmentCode texts);
                               AppendFile P2 (formattedComponentCode texts);
                               AppendFile P3 (formattedComponentTypesCode texts);
                               AppendFile idx (barrelLine texts)] |}).
Proof.
  intros HP1 HP2 HP3 Hnodup Hfree.
  rewrite !Forall_cons in Hfree.
  destruct Hfree as ((D1 & F1 & Q1) & (D2 & F2 & Q2) & (D3 & F3 & Q3)
                     & (D4 & F4 & Q4) & _).
  rewrite !NoDup_cons, !not_elem_of_cons in Hnodup.
  destruct Hnodup as ((N12 & N13 & N14 & _) & (N23 & N24 & _) & (N34 & _) & _).
  assert (is_file (fs w) P1 = false) as E1 by by apply is_file_None.
  assert (is_file (fs w) P2 = false) as E2 by by apply is_file_None.
  assert (is_file (fs w) P3 = false) as E3 by by apply is_file_None.
  assert (is_file (fs w) idx = false) as E4 by by apply is_file_None.
  unfold emit. rewrite HP1, HP2, HP3.
  do 3 (erewrite bind_Ok; [|apply lift_Normal]).
  (* the fragment file *)
  erewrite bind_Ok; [|apply existsSync_eq].
  rewrite D1, E1. simpl negb. unfold when at 1.
  erewrite bind_Ok; [|by apply appendFileSync_new].
  (* the component file *)
  erewrite bind_Ok; [|apply existsSync_eq]. simpl fs.
  rewrite is_dir_mk, !is_file_insert_ne, is_file_mk, D2, E2 by done.
  simpl negb. unfold when at 1.
  erewrite bind_Ok; [|apply appendFileSync_new; simpl;
                      [by rewrite is_dir_mk|by rewrite is_dir_mk
                      |by rewrite lookup_insert_ne]].
  (* the types file *)
  erewrite bind_Ok; [|apply existsSync_eq]. simpl fs.
  rewrite is_dir_mk, !is_file_insert_ne, is_file_mk, D3, E3 by done.
  simpl negb. cbv iota.
  erewrite bind_Ok; [|apply appendFileSync_new; simpl;
                      [by rewrite is_dir_mk|by rewrite is_dir_mk
                      |by rewrite !lookup_insert_ne]].
  (* the index file *)
  erewrite bind_Ok; [|apply existsSync_eq]. simpl fs.
  rewrite is_dir_mk, !is_file_insert_ne, is_file_mk, D4, E4 by done.
  simpl orb. cbv iota.
  erewrite bind_Ok; [|reflexivity]. cbv iota.
  rewrite appendFileSync_new; simpl;
    [|by rewrite is_dir_mk|by rewrite is_dir_mk|by rewrite !lookup_insert_ne].
  by rewrite <- !app_assoc.
Qed.

(** What [emit] does where the three files exist and the index file holds
    the line: nothing. *)
Lemma emit_present sd sfd idx nm texts w P1 P2 P3 content :
  fragmentFilePath sfd nm = Normal P1 →
  componentFilePath sd nm = Normal P2 →
  componentTypesFilePath sd nm = Normal P3 →
  Forall (λ p, is_dir (fs w) p || is_file (fs w) p = true) [P1; P2; P3] →
  files (fs w) !! idx = Some content →
  Js.includes content (barrelLine texts) = true →
  emit sd sfd idx nm texts w = (Ok (), w).
Proof.
  intros HP1 HP2 HP3 Hpresent Hidx Hline.
  rewrite !Forall_cons in Hpresent. destruct Hpresent as (X1 & X2 & X3 & _).
  unfold emit. rewrite HP1, HP2, HP3.
  do 3 (erewrite bind_Ok; [|apply lift_Normal]).
  erewrite bind_Ok; [|apply existsSync_eq]. rewrite X1. simpl negb. unfold when at 1.
  erewrite bind_Ok; [|reflexivity].
  erewrite bind_Ok; [|apply existsSync_eq]. rewrite X2. simpl negb. cbv iota.
  erewrite bind_Ok; [|reflexivity].
  erewrite bind_Ok; [|apply existsSync_eq]. rewrite X3. simpl negb. cbv iota.
  erewrite bind_Ok; [|reflexivity].
  erewrite bind_Ok; [|apply existsSync_eq].
  rewrite (is_file_Some _ _ _ Hidx), orb_true_r. cbv iota.
  erewrite bind_Ok; last first.
  { erewrite bind_Ok; [reflexivity|]. unfold readFileSync. by rewrite Hidx. }
  by rewrite Hline.
Qed.


Lemma mkdirSync_recursive_Ok p w w' :
  mkdirSync_recursive p w = (Ok (), w') →
  w' = {| fs := {| dirs := dirs (fs w) ∪ list_to_set (Path.ancestors p);
                   files := files (fs w) |};
          events := events w;
          writes := writes w ++ [Mkdir p] |}.
Proof.
  unfold mkdirSync_recursive.
  destruct (filter _ (Path.ancestors p)); [|done]. by intros [= <-].
Qed.

End EmitterFacts.

(** ** The output paths *)

Section OutputPaths.

Import PathFacts FsFacts.

Variables cwd_segs dsegs : list string.
Hypothesis cwd_normal : Forall normal_segment cwd_segs.
Hypothesis dir_normal : Forall normal_segment dsegs.

Local Abbreviation cwd := (abs_path cwd_segs).
Local Abbreviation root := (cwd_segs ++ dsegs).

Local Ltac normal_literal := split_and!; done.

Local Ltac solve_normal :=
  repeat match goal with
         | |- Forall _ (_ :: _) => constructor
         | |- Forall _ [] => constructor
         | |- Forall normal_segment _ => assumption
         | |- normal_segment _ => normal_literal
         end.

Lemma root_normal : Forall normal_segment root.
Proof. by apply Forall_app. Qed.

Lemma sectionsDir_value c :
  dir c = JStr (rel_path dsegs) →
  sectionsDir cwd c = Normal (abs_path (root ++ sections_segs)).
Proof.
  intros Hdir. unfold sectionsDir. rewrite Hdir.
  etrans; [apply (join_abs cwd_segs [dsegs; ["components"]] "sections")|].
  - done.
  - solve_normal.
  - normal_literal.
  - simpl. by rewrite <- !app_assoc.
Qed.

Lemma sectionsFragmentsDir_value c :
  dir c = JStr (rel_path dsegs) →
  sectionsFragmentsDir cwd c = Normal (abs_path (root ++ fragments_segs)).
Proof.
  intros Hdir. unfold sectionsFragmentsDir. rewrite Hdir.
  etrans; [apply (join_abs cwd_segs [dsegs; ["graphql"]; ["fragments"]] "sections")|].
  - done.
  - solve_normal.
  - normal_literal.
  - simpl. by rewrite <- !app_assoc.
Qed.

Lemma sectionsFragmentsIndexDir_value c :
  dir c = JStr (rel_path dsegs) →
  sectionsFragmentsIndexDir cwd c = Normal (abs_path (root ++ index_segs)).
Proof.
  intros Hdir. unfold sectionsFragmentsIndexDir. rewrite Hdir.
  etrans; [apply (join_abs cwd_segs [dsegs; ["graphql"]; ["fragments"]] "index.ts")|].
  - done.
  - solve_normal.
  - normal_literal.
  - simpl. by rewrite <- !app_assoc.
Qed.

Lemma file_path_value above file :
  Forall normal_segment above → normal_segment file →
  Path.join [JStr (abs_path above); JStr file] = Normal (abs_path (above ++ [file])).
Proof. intros Habove Hfile. by apply (join_abs above [] file). Qed.

Lemma sections_normal : Forall normal_segment (root ++ sections_segs).
Proof.
  apply Forall_app. split; [apply root_normal|].
  unfold sections_segs, fragments_segs, index_segs. solve_normal.
Qed.

Lemma fragments_normal : Forall normal_segment (root ++ fragments_segs).
Proof.
  apply Forall_app. split; [apply root_normal|].
  unfold sections_segs, fragments_segs, index_segs. solve_normal.
Qed.

Lemma fragmentFilePath_value nm :
  Js.has_char Js.is_slash nm = false →
  fragmentFilePath (abs_path (root ++ fragments_segs)) nm
  = Normal (abs_path (root ++ fragments_segs ++ [Js.lowerFirst nm +:+ ".ts"])).
Proof.
  intros Hnm. unfold fragmentFilePath. rewrite app_assoc.
  apply file_path_value; [apply fragments_normal|].
  apply normal_file; [by rewrite has_char_slash_lowerFirst|done|simpl; lia].
Qed.

Lemma componentFilePath_value nm :
  Js.has_char Js.is_slash nm = false →
  componentFilePath (abs_path (root ++ sections_segs)) nm
  = Normal (abs_path (root ++ sections_segs ++ [nm +:+ ".vue"])).
Proof.
  intros Hnm. unfold componentFilePath. rewrite app_assoc.
  apply file_path_value; [apply sections_normal|].
  apply normal_file; [done|done|simpl; lia].
Qed.

Lemma componentTypesFilePath_value nm :
  Js.has_char Js.is_slash nm = false →
  componentTypesFilePath (abs_path (root ++ sections_segs)) nm
  = Normal (abs_path (root ++ sections_segs ++ [Js.lowerFirst nm +:+ ".types.ts"])).
Proof.
  intros Hnm. unfold componentTypesFilePath. rewrite app_assoc.
  apply file_path_value; [apply sections_normal|].
  apply normal_file; [by rewrite has_char_slash_lowerFirst|done|simpl; lia].
Qed.

End OutputPaths.

Section MainFacts.

Import PathFacts FsFacts.

Local Arguments Path.ancestors : simpl never.
Local Arguments Path.dirname : simpl never.
Local Arguments abs_path : simpl never.

Variable net : string → axios_result.
Variable sched : list string → list nat.
Variable prettier_format : string → string → promise string.

Lemma ensure_dir {B} p (rest : io B) w :
  (existsSync p ≫= λ present,
     when (negb present) (mkdirSync_recursive p) ≫= λ _, rest) w
  = if is_dir (fs w) p || is_file (fs w) p then rest w
    else (mkdirSync_recursive p ≫= λ _, rest) w.
Proof.
  erewrite bind_Ok; [|apply existsSync_eq].
  by destruct (is_dir (fs w) p || is_file (fs w) p).
Qed.



Lemma run_fs cwd fuel args f :
  fs (run net sched prettier_format cwd fuel args f).2
  = fs (main_try net sched prettier_format cwd fuel args (fresh f)).2
  ∧ writes (run net sched prettier_format cwd fuel args f).2
    = writes (main_try net sched prettier_format cwd fuel args (fresh f)).2.
Proof.
  unfold run, main. fold (fresh f).
  by destruct (main_try net sched prettier_format cwd fuel args (fresh f)) as [[?|?|] ?].
Qed.




End MainFacts.

(** *** The four output paths of a run *)

Section FourPaths.

Import PathFacts FsFacts.

Variables cwd_segs dsegs : list string.
Variable nm : string.
Hypothesis cwd_normal : Forall normal_segment cwd_segs.
Hypothesis dir_normal : Forall normal_segment dsegs.
Hypothesis nm_no_slash : Js.has_char Js.is_slash nm = false.

Local Abbreviation root := (cwd_segs ++ dsegs).
Local Abbreviation fragment_file := (Js.lowerFirst nm +:+ ".ts").
Local Abbreviation component_file := (nm +:+ ".vue").
Local Abbreviation types_file := (Js.lowerFirst nm +:+ ".types.ts").

Lemma fragment_file_normal : normal_segment fragment_file.
Proof. apply normal_file; [by rewrite has_char_slash_lowerFirst|done|simpl; lia]. Qed.

Lemma component_file_normal : normal_segment component_file.
Proof. apply normal_file; [done|done|simpl; lia]. Qed.

Lemma types_file_normal : normal_segment types_file.
Proof. apply normal_file; [by rewrite has_char_slash_lowerFirst|done|simpl; lia]. Qed.

Lemma component_types_differ : component_file ≠ types_file.
Proof.
  intros Heq. apply (f_equal String.length) in Heq.
  rewrite !length_append, length_lowerFirst in Heq. simpl in Heq. lia.
Qed.

Local Abbreviation output_segs := (output_segs nm).

Lemma output_segs_NoDup : NoDup output_segs.
Proof.
  pose proof component_types_differ as Hdiffer.
  unfold output_segs. rewrite !NoDup_cons, !not_elem_of_cons.
  split_and!; try done; try apply not_elem_of_nil; try apply NoDup_nil_2.
  intros [= ?]. done.
Qed.

Lemma output_segs_normal : Forall (Forall normal_segment) output_segs.
Proof.
  pose proof fragment_file_normal. pose proof component_file_normal.
  pose proof types_file_normal.
  unfold output_segs, fragments_segs, sections_segs, index_segs. simpl.
  repeat match goal with
         | |- Forall _ (_ :: _) => constructor
         | |- Forall _ [] => constructor
         | |- normal_segment _ => first [assumption | split_and!; done]
         end.
Qed.

Lemma output_segs_ne_nil : Forall (λ segs, segs ≠ []) output_segs.
Proof. unfold output_segs. repeat constructor; done. Qed.

(** No output path is one of the directories the run creates. *)
Lemma output_not_directory segs dir_segs :
  segs ∈ output_segs → dir_segs ∈ [sections_segs; fragments_segs] →
  abs_path (root ++ segs) ∉ Path.ancestors (abs_path (root ++ dir_segs)).
Proof.
  intros Hsegs Hdir.
  assert (Forall normal_segment segs) as Hnormal.
  { eapply Forall_forall in Hsegs; [exact Hsegs|]. apply output_segs_normal. }
  apply list_elem_of_In in Hsegs, Hdir. simpl in Hsegs, Hdir.
  assert (Forall normal_segment (root ++ dir_segs)) as Hdir_normal.
  { destruct Hdir as [<-|[<-|[]]]; [by apply sections_normal|by apply fragments_normal]. }
  intros (k & Hk & Heq)%elem_of_ancestors; [|done].
  apply abs_path_inj in Heq;
    [|apply Forall_app; split; [by apply root_normal|done]
     |by apply Forall_take].
  assert (length (root ++ dir_segs) ≤ length (root ++ segs)) as Hlen.
  { rewrite !length_app.
    destruct Hsegs as [<-|[<-|[<-|[<-|[]]]]], Hdir as [<-|[<-|[]]]; simpl; lia. }
  rewrite take_ge in Heq.
  2: { apply (f_equal length) in Heq. rewrite length_take in Heq. lia. }
  apply app_inv_head in Heq. subst segs.
  destruct Hsegs as [Hs|[Hs|[Hs|[Hs|[]]]]], Hdir as [<-|[<-|[]]]; done.
Qed.

End FourPaths.

(** *** The display name and the export line *)

Module NameFacts.

Import JsFacts PathFacts.

Lemma split_preserves p sep s :
  Js.has_char p s = false → Forall (λ t, Js.has_char p t = false) (Js.split sep s).
Proof.
  induction s as [|c r IH]; simpl; [by repeat constructor|].
  intros [Hc Hr]%orb_false_elim. specialize (IH Hr).
  destruct (sep c); [by constructor|].
  destruct (Js.split sep r) as [|h t]; [by repeat constructor; simpl; rewrite Hc|].
  apply Forall_cons in IH as [Hh Ht]. constructor; [|done]. simpl. by rewrite Hc, Hh.
Qed.

Lemma is_slash_toUpperCase c : Js.is_slash (Js.toUpperCase c) = Js.is_slash c.
Proof. by destruct c as [[] [] [] [] [] [] [] []]. Qed.

Lemma has_char_slash_capitalize s :
  Js.has_char Js.is_slash (Js.capitalize s) = Js.has_char Js.is_slash s.
Proof. destruct s as [|c s]; [done|]. simpl. by rewrite is_slash_toUpperCase. Qed.

Lemma has_char_join_empty p l :
  Forall (λ t, Js.has_char p t = false) l → Js.has_char p (Js.join "" l) = false.
Proof.
  induction 1 as [|x r Hx Hr IH]; [done|].
  destruct r as [|y r]; [done|].
  rewrite join_cons_cons, !has_char_app, Hx, IH. done.
Qed.

Lemma processString_no_slash id names :
  Js.has_char Js.is_slash id = false →
  processString (JStr id) = Normal names →
  Js.has_char Js.is_slash (name names) = false.
Proof.
  intros Hid. unfold processString.
  destruct (Js.split Js.is_dot id !! 1) as [second|] eqn:Hsecond; [|done].
  intros [= <-]. simpl. apply has_char_join_empty.
  apply Forall_fmap. eapply Forall_impl.
  - apply split_preserves.
    pose proof (split_preserves Js.is_slash Js.is_dot id Hid) as Hall.
    eapply Forall_lookup_1 in Hall; [exact Hall|exact Hsecond].
  - intros t Ht. simpl. by rewrite has_char_slash_capitalize.
Qed.

Lemma startsWith_longer needle hay :
  String.length hay < String.length needle → Js.startsWith needle hay = false.
Proof.
  revert hay. induction needle as [|a n IH]; intros hay Hlen; [simpl in Hlen; lia|].
  destruct hay as [|b h]; [done|]. simpl in *.
  rewrite IH by lia. by rewrite andb_false_r.
Qed.

Lemma occurrences_longer needle hay :
  String.length hay < String.length needle → Js.occurrences needle hay = 0.
Proof.
  induction hay as [|c h IH]; intros Hlen; simpl.
  - by rewrite startsWith_longer.
  - rewrite startsWith_longer by done. rewrite IH; [done|]. simpl in Hlen. lia.
Qed.

(** A text occurs once in itself. *)
Lemma occurrences_self s : s ≠ "" → Js.occurrences s s = 1.
Proof.
  destruct s as [|c r]; [done|]. intros _.
  change (Js.occurrences (String c r) (String c r))
    with ((if Js.startsWith (String c r) (String c r) then 1 else 0)
          + Js.occurrences (String c r) r).
  rewrite startsWith_refl, occurrences_longer; [done|]. simpl. lia.
Qed.

Lemma includes_self s : Js.includes s s = true.
Proof. destruct s as [|c r]; [done|]. simpl. by rewrite bool_decide_eq_true_2, startsWith_refl. Qed.

Lemma indexCode_ne_empty nm : indexCode nm ≠ "".
Proof. done. Qed.

End NameFacts.

(** ** Running the tool twice *)

Section Idempotence.

Import PathFacts FsFacts NameFacts.

Local Arguments Path.ancestors : simpl never.
Local Arguments Path.dirname : simpl never.
Local Arguments abs_path : simpl never.

Variable net : string → axios_result.
Variable sched : list string → list nat.
Variable prettier_format : string → string → promise string.

(** The value of [generate] does not depend on the world it starts in. *)
Lemma generate_value fuel c w w' :
  (generate net sched prettier_format fuel c w).1
  = (generate net sched prettier_format fuel c w').1.
Proof.
  unfold generate, render, formatCode, mbind, io_bind, bind, await, lift. simpl.
  destruct (fetchComponentFields net sched (url c) fuel (url c) (component c)).1
    as [attributes| |]; simpl; try done.
  destruct (processString (component c)) as [names'|e]; simpl; [|done].
  destruct attributes as [fields|]; simpl; [|done].
  repeat match goal with
         | |- context [prettier_format ?code ?parser] =>
             destruct (prettier_format code parser); simpl; try done
         end.
Qed.

(** C5.  A run that starts with nothing below the target directory and ends
    without an exception has written the three files with the three formatted
    texts and an index file that is the export line, which therefore occurs
    in it once; and a second run with the same arguments on the file system
    the first one left, whatever the instance answers then, writes nothing
    and leaves every file as it is. *)
Theorem second_run_writes_nothing (cwd_segs dsegs : list string) (id : string)
    (fuel : nat) (args : list string) (f0 : filesystem) (w1 : world) :
  Forall normal_segment cwd_segs → Forall normal_segment dsegs →
  dir (parse_args args default_config) = JStr (rel_path dsegs) →
  component (parse_args args default_config) = JStr id →
  Js.has_char Js.is_slash id = false →
  empty_below f0 (cwd_segs ++ dsegs) →
  main_try net sched prettier_format (abs_path cwd_segs) fuel args (fresh f0)
  = (Ok (), w1) →
  ∃ names texts,
    (generate net sched prettier_format fuel (parse_args args default_config)
       (fresh f0)).1 = Ok (names, texts)
    ∧ barrelLine texts = indexCode (name names)
    ∧ let root := cwd_segs ++ dsegs in
      let fragment_path :=
        abs_path (root ++ fragments_segs ++ [Js.lowerFirst (name names) +:+ ".ts"]) in
      let component_path :=
        abs_path (root ++ sections_segs ++ [name names +:+ ".vue"]) in
      let types_path :=
        abs_path (root ++ sections_segs ++ [Js.lowerFirst (name names) +:+ ".types.ts"]) in
      let index_path := abs_path (root ++ index_segs) in
      files (fs w1)
      = <[index_path := barrelLine texts]>
          (<[types_path := formattedComponentTypesCode texts]>
             (<[component_path := formattedComponentCode texts]>
                (<[fragment_path := fragmentCode texts]> (files f0))))
      ∧ (∃ content,
           files (fs w1) !! index_path = Some content
           ∧ Js.occurrences (barrelLine texts) content = 1)
      ∧ ∀ net' sched' prettier_format' fuel',
          let second :=
            run net' sched' prettier_format' (abs_path cwd_segs) fuel' args (fs w1) in
          fs second.2 = fs w1 ∧ writes second.2 = [].
Proof.
  intros Hcwd Hdsegs Hdir Hcomponent Hid Hempty Hrun.
  set (c := parse_args args default_config) in *.
  set (root := cwd_segs ++ dsegs) in *.
  set (sd := abs_path (root ++ sections_segs)).
  set (sfd := abs_path (root ++ fragments_segs)).
  set (idx := abs_path (root ++ index_segs)).
  pose proof (sectionsDir_value cwd_segs dsegs Hcwd Hdsegs c Hdir) as Hsd.
  pose proof (sectionsFragmentsDir_value cwd_segs dsegs Hcwd Hdsegs c Hdir) as Hsfd.
  pose proof (sectionsFragmentsIndexDir_value cwd_segs dsegs Hcwd Hdsegs c Hdir) as Hidx.
  fold root sd in Hsd. fold root sfd in Hsfd. fold root idx in Hidx.
  (* the two directories do not exist and are apart *)
  assert ((sd ∉ dirs f0) ∧ files f0 !! sd = None) as [Hsd_dir Hsd_file]
    by (by apply Hempty).
  assert ((sfd ∉ dirs f0) ∧ files f0 !! sfd = None) as [Hsfd_dir Hsfd_file]
    by (by apply Hempty).
  assert (sd ∈ Path.ancestors sd) as Hsd_self.
  { apply elem_of_ancestors; [by apply sections_normal|].
    exists (length (root ++ sections_segs)). by rewrite firstn_all. }
  assert (sfd ∈ Path.ancestors sfd) as Hsfd_self.
  { apply elem_of_ancestors; [by apply fragments_normal|].
    exists (length (root ++ fragments_segs)). by rewrite firstn_all. }
  assert (sfd ∉ Path.ancestors sd) as Hapart.
  { intros (k & Hk & Heq)%elem_of_ancestors; [|by apply sections_normal].
    apply abs_path_inj in Heq;
      [|by apply fragments_normal|apply Forall_take; by apply sections_normal].
    apply (f_equal length) in Heq. rewrite length_take, !length_app in Heq.
    simpl in Heq. lia. }
  (* the first run, step by step *)
  unfold main_try in Hrun. fold c in Hrun. rewrite Hsd, Hsfd, Hidx in Hrun.
  do 3 (erewrite bind_Ok in Hrun; [|apply lift_Normal]).
  set (tail := generate net sched prettier_format fuel c ≫= _) in Hrun.
  rewrite ensure_dir in Hrun. change (fs (fresh f0)) with f0 in Hrun.
  rewrite (proj2 (is_dir_false _ _) Hsd_dir), (proj2 (is_file_None _ _) Hsd_file) in Hrun.
  simpl orb in Hrun. cbv iota in Hrun.
  destruct (mkdirSync_recursive sd (fresh f0)) as [[[]|e|] wa] eqn:Hmk1;
    [|by erewrite bind_Err in Hrun|by erewrite bind_Hang in Hrun].
  erewrite bind_Ok in Hrun by done.
  apply mkdirSync_recursive_Ok in Hmk1. subst wa.
  rewrite ensure_dir in Hrun. cbn [fs files dirs] in Hrun.
  change (fs (fresh f0)) with f0 in Hrun.
  rewrite is_file_mk, (proj2 (is_file_None _ _) Hsfd_file), orb_false_r in Hrun.
  rewrite (proj2 (is_dir_false _ sfd)) in Hrun; last first.
  { cbn [dirs]. intros [?|?%elem_of_list_to_set]%elem_of_union; done. }
  match type of Hrun with
  | _ ?w = _ =>
      destruct (mkdirSync_recursive sfd w) as [[[]|e|] wb] eqn:Hmk2
  end; [|by erewrite bind_Err in Hrun|by erewrite bind_Hang in Hrun].
  erewrite bind_Ok in Hrun by done.
  apply mkdirSync_recursive_Ok in Hmk2. cbn [fs files dirs events writes] in Hmk2.
  change (fs (fresh f0)) with f0 in Hmk2. subst wb.
  match type of Hrun with _ ?w = _ => set (wb := w) in Hrun end.
  (* the texts *)
  unfold tail in Hrun. clear tail.
  destruct (generate net sched prettier_format fuel c wb) as [[[names texts]|e|] wc]
    eqn:Hgen; [|by erewrite bind_Err in Hrun|by erewrite bind_Hang in Hrun].
  erewrite bind_Ok in Hrun by done. cbn [fst snd] in Hrun.
  destruct (generate_reads_only net sched prettier_format fuel c wb) as [Hfs Hwrites].
  rewrite Hgen in Hfs, Hwrites. cbn [fst snd] in Hfs, Hwrites.
  destruct (generate_Ok _ _ _ _ _ _ _ _ _ Hgen) as [Hnames Hline].
  rewrite Hcomponent in Hnames.
  pose proof (processString_no_slash id names Hid Hnames) as Hnm.
  exists names, texts. split.
  { by rewrite (generate_value _ _ (fresh f0) wb), Hgen. }
  split; [done|]. intros root0 P1 P2 P3 idx0. subst root0 idx0.
  pose proof (fragmentFilePath_value cwd_segs dsegs Hcwd Hdsegs (name names) Hnm) as HP1.
  pose proof (componentFilePath_value cwd_segs dsegs Hcwd Hdsegs (name names) Hnm) as HP2.
  pose proof (componentTypesFilePath_value cwd_segs dsegs Hcwd Hdsegs (name names) Hnm)
    as HP3.
  fold root sfd P1 in HP1. fold root sd P2 in HP2. fold root sd P3 in HP3.
  set (place := λ segs, abs_path (root ++ segs)).
  assert ([P1; P2; P3; idx] = place <$> output_segs (name names)) as Hplaces by done.
  assert (∀ segs, segs ∈ output_segs (name names) →
            Forall normal_segment (root ++ segs)) as Hnormal.
  { intros segs Hsegs. apply Forall_app. split; [by apply root_normal|].
    eapply Forall_forall in Hsegs; [exact Hsegs|]. by apply output_segs_normal. }
  assert (NoDup [P1; P2; P3; idx]) as Hnodup.
  { rewrite Hplaces. apply NoDup_fmap_2_strong; [|by apply output_segs_NoDup].
    intros x y Hx Hy Heq. apply abs_path_inj in Heq; [|by apply Hnormal..].
    by apply app_inv_head in Heq. }
  assert (dirs (fs wc)
          = dirs f0 ∪ list_to_set (Path.ancestors sd) ∪ list_to_set (Path.ancestors sfd))
    as Hdirs by (by rewrite Hfs).
  assert (files (fs wc) = files f0) as Hfiles by (by rewrite Hfs).
  assert (∀ k, k ≤ length (root ++ fragments_segs) →
            is_dir (fs wc) (abs_path (take k (root ++ fragments_segs))) = true) as Habove.
  { intros k Hk. apply is_dir_true. rewrite Hdirs.
    apply elem_of_union. right. apply elem_of_list_to_set.
    apply elem_of_ancestors; [by apply fragments_normal|]. by exists k. }
  assert (is_dir (fs wc) sd = true) as Hsd_now.
  { apply is_dir_true. rewrite Hdirs. apply elem_of_union. left.
    apply elem_of_union. right. by apply elem_of_list_to_set. }
  assert (Forall (λ p, is_dir (fs wc) p = false ∧ files (fs wc) !! p = None
                       ∧ is_dir (fs wc) (Path.dirname p) = true) [P1; P2; P3; idx])
    as Hfree.
  { assert (∀ segs, segs ∈ output_segs (name names) →
              is_dir (fs wc) (place segs) = false
              ∧ files (fs wc) !! place segs = None) as Hout.
    { intros segs Hsegs.
      assert (segs ≠ []) as Hne.
      { exact (proj1 (Forall_forall _ _) (output_segs_ne_nil (name names)) segs Hsegs). }
      destruct (Hempty segs Hne) as [Hd Hf]. rewrite Hfiles. split; [|done].
      apply is_dir_false. rewrite Hdirs.
      intros [[?|Hin%elem_of_list_to_set]%elem_of_union
             |Hin%elem_of_list_to_set]%elem_of_union; [done| |].
      - exact (output_not_directory cwd_segs dsegs (name names) Hcwd Hdsegs Hnm
                 segs sections_segs Hsegs ltac:(by left) Hin).
      - exact (output_not_directory cwd_segs dsegs (name names) Hcwd Hdsegs Hnm
                 segs fragments_segs Hsegs ltac:(right; by left) Hin). }
    assert (∀ segs, segs ∈ output_segs (name names) →
              is_dir (fs wc) (Path.dirname (place segs)) = true →
              is_dir (fs wc) (place segs) = false
              ∧ files (fs wc) !! place segs = None
              ∧ is_dir (fs wc) (Path.dirname (place segs)) = true) as Hall.
    { intros segs Hsegs Hparent. destruct (Hout segs Hsegs). by split_and!. }
    constructor; [|constructor; [|constructor; [|constructor; [|constructor]]]].
    - apply (Hall (fragments_segs ++ [Js.lowerFirst (name names) +:+ ".ts"]));
        [by left|].
      unfold place. rewrite app_assoc, dirname_abs_snoc;
        [|by apply fragments_normal|by apply fragment_file_normal].
      specialize (Habove (length (root ++ fragments_segs)) ltac:(lia)).
      by rewrite firstn_all in Habove.
    - apply (Hall (sections_segs ++ [name names +:+ ".vue"]));
        [right; by left|].
      unfold place. rewrite app_assoc, dirname_abs_snoc;
        [done|by apply sections_normal|by apply component_file_normal].
    - apply (Hall (sections_segs ++ [Js.lowerFirst (name names) +:+ ".types.ts"]));
        [right; right; by left|].
      unfold place. rewrite app_assoc, dirname_abs_snoc;
        [done|by apply sections_normal|by apply types_file_normal].
    - apply (Hall index_segs); [right; right; right; by left|].
      unfold place.
      change index_segs with (["graphql"; "fragments"] ++ ["index.ts"]).
      rewrite app_assoc, dirname_abs_snoc; first last.
      { split_and!; done. }
      { apply Forall_app. split; [by apply root_normal|].
        constructor; [split_and!; done|]. constructor; [split_and!; done|].
        constructor. }
      specialize (Habove (length root + 2)). rewrite take_app_add in Habove.
      apply Habove. rewrite length_app. simpl. lia. }
  rewrite (emit_fresh sd sfd idx (name names) texts wc P1 P2 P3 HP1 HP2 HP3
             Hnodup Hfree) in Hrun.
  injection Hrun as <-. cbn [fs files dirs].
  split; [by rewrite Hfiles|]. split.
  { exists (barrelLine texts). split; [by rewrite lookup_insert_eq|].
    apply occurrences_self. rewrite Hline. apply indexCode_ne_empty. }
  (* the second run *)
  intros net' sched' prettier_format' fuel'. cbv zeta.
  set (f1 := {| dirs := dirs (fs wc); files := _ |}).
  destruct (run_fs net' sched' prettier_format' (abs_path cwd_segs) fuel' args f1)
    as [-> ->].
  unfold main_try. fold c. rewrite Hsd, Hsfd, Hidx.
  do 3 (erewrite bind_Ok; [|apply lift_Normal]).
  rewrite ensure_dir. change (fs (fresh f1)) with f1.
  replace (is_dir f1 sd) with true by (symmetry; exact Hsd_now).
  cbn [orb]. cbv iota.
  rewrite ensure_dir. change (fs (fresh f1)) with f1.
  replace (is_dir f1 sfd) with true; last first.
  { symmetry. specialize (Habove (length (root ++ fragments_segs)) ltac:(lia)).
    by rewrite firstn_all in Habove. }
  cbn [orb]. cbv iota.
  destruct (generate net' sched' prettier_format' fuel' c (fresh f1))
    as [[[names' texts']|e|] wd] eqn:Hgen';
    destruct (generate_reads_only net' sched' prettier_format' fuel' c (fresh f1))
      as [Hfs' Hwrites'];
    rewrite Hgen' in Hfs', Hwrites'; cbn [fst snd] in Hfs', Hwrites';
    [|by erewrite bind_Err|by erewrite bind_Hang].
  erewrite bind_Ok by done. cbn [fst snd].
  destruct (generate_Ok _ _ _ _ _ _ _ _ _ Hgen') as [Hnames' Hline'].
  rewrite Hcomponent, Hnames in Hnames'. injection Hnames' as <-.
  rewrite (emit_present sd sfd idx (name names) texts' wd P1 P2 P3 (barrelLine texts));
    [done|done|done|done| | |].
  - pose proof Hnodup as Hne. rewrite !NoDup_cons, !not_elem_of_cons in Hne.
    destruct Hne as ((N12 & N13 & N14 & _) & (N23 & N24 & _) & (N34 & _) & _).
    rewrite Hfs'. change (fs (fresh f1)) with f1.
    constructor; [|constructor; [|constructor; [|constructor]]];
      apply orb_true_intro; right; eapply is_file_Some; unfold f1; cbn [files].
    + rewrite !lookup_insert_ne by done. apply lookup_insert_eq.
    + rewrite !lookup_insert_ne by done. apply lookup_insert_eq.
    + rewrite !lookup_insert_ne by done. apply lookup_insert_eq.
  - rewrite Hfs'. change (fs (fresh f1)) with f1. unfold f1. cbn [files].
    apply lookup_insert_eq.
  - rewrite Hline', <- Hline. apply includes_self.
Qed.

End Idempotence.

Lemma second_run_writes_nothing_witness :
  ∃ names texts,
    barrelLine texts = indexCode (name names)
    ∧ (∃ content,
         files (fs site_after_first_run)
           !! abs_path (site_segs ++ ["foo"] ++ index_segs) = Some content
         ∧ Js.occurrences (barrelLine texts) content = 1)
    ∧ ∀ net' sched' prettier_format' fuel',
        fs (run net' sched' prettier_format' (abs_path site_segs) fuel' site_args
              (fs site_after_first_run)).2 = fs site_after_first_run
        ∧ writes (run net' sched' prettier_format' (abs_path site_segs) fuel' site_args
                    (fs site_after_first_run)).2 = [].
Proof.
  destruct (second_run_writes_nothing hero_net in_key_order verbatim
              site_segs ["foo"] "sections.hero" 2 site_args no_entries
              site_after_first_run)
    as (names & texts & _ & Hline & _ & Hindex & Hsecond).
  - repeat constructor; done.
  - repeat constructor; done.
  - reflexivity.
  - reflexivity.
  - reflexivity.
  - intros rest _. split; [apply not_elem_of_empty|apply lookup_empty].
  - by vm_compute.
  - exists names, texts. rewrite <- app_assoc in Hindex. by split_and!.
Defined.


(** * Further properties of the code *)

(** ** The Name Deriver on arbitrary strings *)

Module DeriverFacts.

Import JsFacts.

Lemma split_two sep s :
  Js.has_char sep s = true → ∃ first second rest, Js.split sep s = first :: second :: rest.
Proof.
  induction s as [|c s IH]; [done|]. simpl.
  destruct (sep c); simpl.
  - intros _. pose proof (split_nonempty sep s) as Hne.
    destruct (Js.split sep s) as [|h t]; [done|]. by exists "", h, t.
  - intros Hs. destruct (IH Hs) as (first & second & rest & ->).
    by exists (String c first), second, rest.
Qed.

Lemma toLowerCase_toUpperCase c :
  is_Some (index_of c lower_letters) → Js.toLowerCase (Js.toUpperCase c) = c.
Proof.
  destruct c as [[] [] [] [] [] [] [] []]; vm_compute; try (by intros); by intros [? ?].
Qed.

Lemma lowerFirst_pascal c s rest :
  is_Some (index_of c lower_letters) →
  Js.lowerFirst (pascal (String c s :: rest)) = String c s +:+ pascal rest.
Proof.
  intros Hc. unfold pascal. rewrite fmap_cons.
  destruct rest as [|t rest].
  - simpl. rewrite toLowerCase_toUpperCase by done.
    change (String c s +:+ "") with (String c (s +:+ "")).
    by rewrite PathFacts.app_empty_r.
  - rewrite fmap_cons, PathFacts.join_cons_cons. simpl Js.capitalize at 1.
    change (String (Js.toUpperCase c) s +:+ ?x) with (String (Js.toUpperCase c) (s +:+ x)).
    simpl Js.lowerFirst. rewrite toLowerCase_toUpperCase by done.
    change ("" +:+ ?x) with x. done.
Qed.

End DeriverFacts.

(** X1.  [processString] returns the two names for exactly the strings that
    contain a dot; on a string without a dot, [str.split('.')[1]] is
    [undefined] and the call throws. *)
Theorem processString_defined_iff_dot (s : string) :
  (∃ names, processString (JStr s) = Normal names) ↔ Js.has_char Js.is_dot s = true.
Proof.
  unfold processString. split.
  - intros [names Hnames]. destruct (Js.has_char Js.is_dot s) eqn:Hdot; [done|].
    by rewrite (JsFacts.split_no_sep _ _ Hdot) in Hnames.
  - intros Hdot. destruct (DeriverFacts.split_two _ _ Hdot) as (first & second & rest & ->).
    simpl. by eexists.
Qed.

(** X2.  The stem of the names of the fragment file and of the types file,
    [name.charAt(0).toLowerCase() + name.slice(1)], is the camel case form of
    the kebab-case name: for an identifier whose part after the dot is made
    of hyphen-separated tokens, the first of which starts with one of the 26
    lower case letters and the others with a code unit of ASCII, the stem is
    that first token as it is, followed by the other tokens in Pascal case,
    each with the capital of its first letter in front. *)
Theorem file_stem_camel_case (ns : string) (c : ascii) (s : string) (rest : list string) :
  Js.has_char Js.is_dot ns = false →
  Forall token (String c s :: rest) →
  is_Some (index_of c lower_letters) →
  Forall starts_in_ascii rest →
  ∃ names,
    processString (JStr (ns +:+ "." +:+ Js.join "-" (String c s :: rest))) = Normal names
    ∧ Js.lowerFirst (name names) = String c s +:+ PascalCase rest.
Proof.
  intros Hns Htokens Hc _.
  set (kebab := Js.join "-" (String c s :: rest)).
  assert (Js.split Js.is_dot (ns +:+ "." +:+ kebab) = [ns; kebab]) as Hsplit.
  { change (ns +:+ "." +:+ kebab) with (ns +:+ String "." kebab).
    rewrite JsFacts.split_app_sep by done.
    rewrite (JsFacts.split_no_sep _ _ Hns), (JsFacts.split_no_sep Js.is_dot kebab); [done|].
    apply JsFacts.has_char_join; [done|].
    eapply Forall_impl; [exact Htokens|]. apply JsFacts.token_no_dot. }
  assert (Js.split Js.is_hyphen kebab = String c s :: rest) as Hkebab.
  { apply JsFacts.split_join; [done..|].
    eapply Forall_impl; [exact Htokens|]. apply JsFacts.token_no_hyphen. }
  unfold processString. rewrite Hsplit.
  change ([ns; kebab] !! 1) with (Some kebab). cbv beta iota zeta.
  rewrite Hkebab. eexists. split; [reflexivity|].
  rewrite <- JsFacts.pascal_PascalCase. by apply DeriverFacts.lowerFirst_pascal.
Qed.

Lemma file_stem_camel_case_witness :
  ∃ names,
    processString (JStr "sections.hero-banner-2x-large") = Normal names
    ∧ Js.lowerFirst (name names) = "heroBanner2xLarge".
Proof.
  apply (file_stem_camel_case "sections" "h" "ero" ["banner"; "2x"; "large"]).
  - reflexivity.
  - repeat constructor.
  - by eexists.
  - by repeat constructor.
Defined.

(** ** The command line *)

Module ArgsFacts.

Lemma parse_args_app_flag args flag c :
  ∃ c', parse_args (args ++ [flag]) c = set_option c' flag JUndefined.
Proof.
  revert c. induction args as [|a args IH]; intros c; simpl.
  - by exists c.
  - apply IH.
Qed.

Lemma parse_args_app_option args flag value c :
  ∃ c', parse_args (args ++ [flag; value]) c
        = set_option (set_option c' flag (JStr value)) value JUndefined.
Proof.
  revert c. induction args as [|a args IH]; intros c; simpl.
  - by exists c.
  - apply IH.
Qed.

Lemma set_option_other c value v :
  value ∉ flags → set_option c value v = c.
Proof.
  intros Hvalue. unfold set_option, flags in *.
  repeat case_bool_decide; simpl; try done; subst; exfalso; apply Hvalue;
    repeat first [apply list_elem_of_here | apply list_elem_of_further].
Qed.

End ArgsFacts.

(** X3.  The last option of the command line decides: whatever precedes
    them, the two arguments [-i v] (or [--component v]), [--url v] and
    [--dir v] at the end set the component, the address and the directory to
    [v], for a [v] that is not itself an option name. *)
Theorem parse_args_last_option_wins (args : list string) (value : string) (c : config) :
  value ∉ flags →
  component (parse_args (args ++ ["-i"; value]) c) = JStr value
  ∧ component (parse_args (args ++ ["--component"; value]) c) = JStr value
  ∧ url (parse_args (args ++ ["--url"; value]) c) = JStr value
  ∧ dir (parse_args (args ++ ["--dir"; value]) c) = JStr value.
Proof.
  intros Hvalue. split_and!.
  - destruct (ArgsFacts.parse_args_app_option args "-i" value c) as [c' ->].
    by rewrite ArgsFacts.set_option_other.
  - destruct (ArgsFacts.parse_args_app_option args "--component" value c) as [c' ->].
    by rewrite ArgsFacts.set_option_other.
  - destruct (ArgsFacts.parse_args_app_option args "--url" value c) as [c' ->].
    by rewrite ArgsFacts.set_option_other.
  - destruct (ArgsFacts.parse_args_app_option args "--dir" value c) as [c' ->].
    by rewrite ArgsFacts.set_option_other.
Qed.

Lemma parse_args_last_option_wins_witness :
  component (parse_args (["--dir"; "a"; "-i"; "x.y"] ++ ["-i"; "sections.hero"])
               default_config) = JStr "sections.hero"
  ∧ component (parse_args (["--dir"; "a"; "-i"; "x.y"] ++ ["--component"; "sections.hero"])
                 default_config) = JStr "sections.hero"
  ∧ url (parse_args (["--dir"; "a"; "-i"; "x.y"] ++ ["--url"; "sections.hero"])
           default_config) = JStr "sections.hero"
  ∧ dir (parse_args (["--dir"; "a"; "-i"; "x.y"] ++ ["--dir"; "sections.hero"])
           default_config) = JStr "sections.hero".
Proof.
  apply (parse_args_last_option_wins ["--dir"; "a"; "-i"; "x.y"] "sections.hero"
           default_config).
  unfold flags. intros Hin. by repeat (apply elem_of_cons in Hin as [?|Hin]; [done|]);
    apply elem_of_nil in Hin.
Defined.

(** X4.  An option name is looked at wherever it stands, also where it is
    the value of the option before it, and the last argument of the command
    line has [undefined] after it.  So a command line that ends in [--dir]
    leaves the directory [undefined]: [path.join] throws, the exception is
    logged, and the run ends there, with no request made, no directory
    created and no file written. *)
Theorem trailing_dir_option_aborts (net : string → axios_result)
    (sched : list string → list nat) (prettier_format : string → string → promise string)
    (cwd : string) (fuel : nat) (args : list string) (f : filesystem) :
  dir (parse_args (args ++ ["--dir"]) default_config) = JUndefined
  ∧ ∃ error,
      run net sched prettier_format cwd fuel (args ++ ["--dir"]) f
      = (Ok (), {| fs := f; events := [ConsoleError None error]; writes := [] |}).
Proof.
  destruct (ArgsFacts.parse_args_app_flag args "--dir" default_config) as [c' Hc'].
  assert (dir (parse_args (args ++ ["--dir"]) default_config) = JUndefined) as Hdir.
  { by rewrite Hc'. }
  split; [exact Hdir|].
  exists (Path.invalid_path_argument JUndefined).
  unfold run, main.
  assert (main_try net sched prettier_format cwd fuel (args ++ ["--dir"])
            {| fs := f; events := []; writes := [] |}
          = (Err (Path.invalid_path_argument JUndefined),
             {| fs := f; events := []; writes := [] |})) as ->; [|done].
  unfold main_try. apply FsFacts.bind_Err.
  unfold sectionsDir. by rewrite Hdir.
Qed.

(** ** What a run changes *)

Module RunFacts.

Import FsFacts.

Lemma writes_extend_refl allowed w : writes_extend allowed w w.
Proof. exists []. by rewrite app_nil_r. Qed.

Lemma writes_extend_trans allowed w1 w2 w3 :
  writes_extend allowed w1 w2 → writes_extend allowed w2 w3 → writes_extend allowed w1 w3.
Proof.
  intros (a1 & H1 & Ha1) (a2 & H2 & Ha2). exists (a1 ++ a2).
  rewrite H2, H1, <- app_assoc. split; [done|]. by apply Forall_app.
Qed.

Lemma files_kept_refl keep w : files_kept keep w w.
Proof. by intros p content _ H. Qed.

Lemma files_kept_trans keep w1 w2 w3 :
  files_kept keep w1 w2 → files_kept keep w2 w3 → files_kept keep w1 w3.
Proof. intros H1 H2 p content Hp H. by apply H2, H1. Qed.

Lemma writes_extend_impl (allowed allowed' : fs_event → Prop) w w' :
  (∀ ev, allowed ev → allowed' ev) →
  writes_extend allowed w w' → writes_extend allowed' w w'.
Proof.
  intros Himpl (added & Hw & Hadded). exists added. split; [done|].
  eapply Forall_impl; [exact Hadded|exact Himpl].
Qed.

Lemma files_kept_impl (keep keep' : string → Prop) w w' :
  (∀ p, keep' p → keep p) → files_kept keep w w' → files_kept keep' w w'.
Proof. intros Himpl H p content Hp. by apply H, Himpl. Qed.

Lemma writes_extend_same allowed w w' : writes w' = writes w → writes_extend allowed w w'.
Proof. intros H. exists []. by rewrite app_nil_r. Qed.

Lemma files_kept_same keep w w' : files (fs w') = files (fs w) → files_kept keep w w'.
Proof. intros H p content _. by rewrite H. Qed.

(** A transitive relation between worlds that holds along [m] and along every
    continuation holds along [m ≫= k]. *)
Lemma bind_rel (R : relation world) {A B} (m : io A) (k : A → io B) w :
  (∀ w1 w2 w3, R w1 w2 → R w2 w3 → R w1 w3) →
  R w (m w).2 → (∀ a w', m w = (Ok a, w') → R w' (k a w').2) → R w ((m ≫= k) w).2.
Proof.
  intros Htrans. unfold mbind, io_bind, bind.
  destruct (m w) as [[a|e|] w'] eqn:E; simpl; try done.
  intros H1 H2. eapply Htrans; [exact H1|]. by apply H2.
Qed.

Lemma bind_writes allowed {A B} (m : io A) (k : A → io B) w :
  writes_extend allowed w (m w).2 →
  (∀ a w', m w = (Ok a, w') → writes_extend allowed w' (k a w').2) →
  writes_extend allowed w ((m ≫= k) w).2.
Proof. apply bind_rel, writes_extend_trans. Qed.

Lemma bind_files keep {A B} (m : io A) (k : A → io B) w :
  files_kept keep w (m w).2 →
  (∀ a w', m w = (Ok a, w') → files_kept keep w' (k a w').2) →
  files_kept keep w ((m ≫= k) w).2.
Proof. apply bind_rel, files_kept_trans. Qed.

Lemma lift_Ok {A} (c : completion A) w a w' :
  lift c w = (Ok a, w') → c = Normal a ∧ w' = w.
Proof. destruct c; unfold lift, ret, throw; intros; by simplify_eq. Qed.

Lemma lift_world {A} (c : completion A) w : (lift c w).2 = w.
Proof. by destruct c. Qed.

Lemma existsSync_Ok p w present w' :
  existsSync p w = (Ok present, w') →
  present = is_dir (fs w) p || is_file (fs w) p ∧ w' = w.
Proof. unfold existsSync. intros; by simplify_eq. Qed.

Lemma readFileSync_world p w : (readFileSync p w).2 = w.
Proof. unfold readFileSync. by destruct (files (fs w) !! p). Qed.

Lemma readFileSync_Ok p w content w' :
  readFileSync p w = (Ok content, w') → files (fs w) !! p = Some content ∧ w' = w.
Proof.
  unfold readFileSync. destruct (files (fs w) !! p); intros; by simplify_eq.
Qed.

Lemma when_rel (R : relation world) b (m : io ()) w :
  R w w → (b = true → R w (m w).2) → R w (when b m w).2.
Proof. intros Hrefl H. unfold when. destruct b; [by apply H|exact Hrefl]. Qed.

Lemma mkdirSync_recursive_writes (allowed : fs_event → Prop) p w :
  allowed (Mkdir p) → writes_extend allowed w (mkdirSync_recursive p w).2.
Proof.
  intros Hp. unfold mkdirSync_recursive.
  destruct (filter _ _); simpl; [|apply writes_extend_refl].
  exists [Mkdir p]. split; [done|]. by constructor.
Qed.

Lemma mkdirSync_recursive_files keep p w : files_kept keep w (mkdirSync_recursive p w).2.
Proof.
  apply files_kept_same. unfold mkdirSync_recursive. by destruct (filter _ _).
Qed.

Lemma appendFileSync_writes (allowed : fs_event → Prop) p data w :
  allowed (AppendFile p data) → writes_extend allowed w (appendFileSync p data w).2.
Proof.
  intros Hp. unfold appendFileSync.
  destruct (is_dir (fs w) p); [apply writes_extend_refl|].
  destruct (negb _); [apply writes_extend_refl|]. simpl.
  exists [AppendFile p data]. split; [done|]. by constructor.
Qed.

Lemma appendFileSync_files keep p data w :
  (∀ q content, keep q → files (fs w) !! q = Some content → q ≠ p) →
  files_kept keep w (appendFileSync p data w).2.
Proof.
  intros Hne q content Hq Hcontent. unfold appendFileSync.
  destruct (is_dir (fs w) p); [done|]. destruct (negb _); [done|]. simpl.
  rewrite lookup_insert_ne; [done|]. intros <-. by eapply Hne.
Qed.

Lemma generate_writes allowed net sched prettier_format fuel c w :
  writes_extend allowed w (generate net sched prettier_format fuel c w).2.
Proof.
  apply writes_extend_same.
  by destruct (generate_reads_only net sched prettier_format fuel c w) as [_ ->].
Qed.

Lemma generate_files keep net sched prettier_format fuel c w :
  files_kept keep w (generate net sched prettier_format fuel c w).2.
Proof.
  apply files_kept_same.
  by destruct (generate_reads_only net sched prettier_format fuel c w) as [-> _].
Qed.

Lemma absent_of_existsSync w p :
  is_dir (fs w) p || is_file (fs w) p = false → files (fs w) !! p = None.
Proof. intros [_ H]%orb_false_elim. by apply is_file_None. Qed.

Lemma emit_writes sd sfd idx nm texts w :
  writes_extend (emits sd sfd idx nm texts) w (emit sd sfd idx nm texts w).2.
Proof.
  unfold emit.
  apply bind_writes; [rewrite lift_world; apply writes_extend_refl|].
  intros P1 ? [HP1 ->]%lift_Ok.
  apply bind_writes; [rewrite lift_world; apply writes_extend_refl|].
  intros P2 ? [HP2 ->]%lift_Ok.
  apply bind_writes; [rewrite lift_world; apply writes_extend_refl|].
  intros P3 ? [HP3 ->]%lift_Ok.
  apply bind_writes; [apply writes_extend_refl|]. intros ? w1 _.
  apply bind_writes.
  { apply when_rel; [apply writes_extend_refl|]. intros _.
    apply appendFileSync_writes. left. by exists P1. }
  intros _ w2 _.
  apply bind_writes; [apply writes_extend_refl|]. intros ? w3 _.
  apply bind_writes.
  { apply when_rel; [apply writes_extend_refl|]. intros _.
    apply appendFileSync_writes. right; left. by exists P2. }
  intros _ w4 _.
  apply bind_writes; [apply writes_extend_refl|]. intros ? w5 _.
  apply bind_writes.
  { apply when_rel; [apply writes_extend_refl|]. intros _.
    apply appendFileSync_writes. right; right; left. by exists P3. }
  intros _ w6 _.
  apply bind_writes; [apply writes_extend_refl|]. intros isIndexFile w7 _.
  apply bind_writes.
  { destruct isIndexFile; [|apply writes_extend_refl].
    apply bind_writes; [rewrite readFileSync_world; apply writes_extend_refl|].
    intros content w8 _. apply writes_extend_refl. }
  intros [] w8 _; [apply writes_extend_refl|].
  apply appendFileSync_writes. by right; right; right.
Qed.

Lemma guarded_append_files keep p data w :
  files_kept keep w
    (when (negb (is_dir (fs w) p || is_file (fs w) p)) (appendFileSync p data) w).2.
Proof.
  apply when_rel; [apply files_kept_refl|]. intros Habsent%negb_true_iff.
  apply appendFileSync_files. intros q content _ Hq ->.
  by rewrite (absent_of_existsSync _ _ Habsent) in Hq.
Qed.

Lemma emit_files sd sfd idx nm texts w :
  files_kept (λ p, p ≠ idx) w (emit sd sfd idx nm texts w).2.
Proof.
  unfold emit.
  apply bind_files; [rewrite lift_world; apply files_kept_refl|].
  intros P1 ? [_ ->]%lift_Ok.
  apply bind_files; [rewrite lift_world; apply files_kept_refl|].
  intros P2 ? [_ ->]%lift_Ok.
  apply bind_files; [rewrite lift_world; apply files_kept_refl|].
  intros P3 ? [_ ->]%lift_Ok.
  apply bind_files; [apply files_kept_refl|]. intros ? ? [-> ->]%existsSync_Ok.
  apply bind_files; [apply guarded_append_files|]. intros _ w2 _.
  apply bind_files; [apply files_kept_refl|]. intros ? ? [-> ->]%existsSync_Ok.
  apply bind_files; [apply guarded_append_files|]. intros _ w4 _.
  apply bind_files; [apply files_kept_refl|]. intros ? ? [-> ->]%existsSync_Ok.
  apply bind_files; [apply guarded_append_files|]. intros _ w6 _.
  apply bind_files; [apply files_kept_refl|]. intros isIndexFile w7 _.
  apply bind_files.
  { destruct isIndexFile; [|apply files_kept_refl].
    apply bind_files; [rewrite readFileSync_world; apply files_kept_refl|].
    intros content w8 _. apply files_kept_refl. }
  intros [] w8 _; [apply files_kept_refl|].
  apply appendFileSync_files. by intros q content Hq _.
Qed.

End RunFacts.

Section RunChanges.

Import FsFacts RunFacts.

Variable net : string → axios_result.
Variable sched : list string → list nat.
Variable prettier_format : string → string → promise string.
Variable cwd : string.


Lemma bind_post (Q : world → Prop) p content {A B} (m : io A) (k : A → io B) w :
  (∀ w', files (fs w') !! p = Some content → Q w') →
  files (fs w) !! p = Some content →
  files_kept (λ _, True) w (m w).2 →
  (∀ a w', m w = (Ok a, w') → files (fs w') !! p = Some content → Q (k a w').2) →
  Q ((m ≫= k) w).2.
Proof.
  intros HQ Hp Hkept Hk. unfold mbind, io_bind, bind.
  destruct (m w) as [[a|e|] w'] eqn:E; simpl in *.
  - apply Hk; [done|]. by apply Hkept.
  - apply HQ. by apply Hkept.
  - apply HQ. by apply Hkept.
Qed.

(** X5.  Every write of a run is accounted for.  It either creates one of
    the two output directories, or it adds one of the four texts to the path
    made for it: then the three paths of the configuration were computed, the
    schema was fetched, the names derived and the three texts formatted, all
    without an exception.  In particular a run whose fetch, name derivation
    or formatting fails writes no file at all. *)
Theorem run_writes_accounted (fuel : nat) (args : list string) (f : filesystem)
    (ev : fs_event) :
  let c := parse_args args default_config in
  ev ∈ writes (run net sched prettier_format cwd fuel args f).2 →
  creates_output_dir cwd c ev
  ∨ ∃ sd sfd idx names texts,
      sectionsDir cwd c = Normal sd
      ∧ sectionsFragmentsDir cwd c = Normal sfd
      ∧ sectionsFragmentsIndexDir cwd c = Normal idx
      ∧ (generate net sched prettier_format fuel c (fresh f)).1 = Ok (names, texts)
      ∧ emits sd sfd idx (name names) texts ev.
Proof.
  intros c.
  set (allowed := λ ev,
         creates_output_dir cwd c ev
         ∨ ∃ sd sfd idx names texts,
             sectionsDir cwd c = Normal sd
             ∧ sectionsFragmentsDir cwd c = Normal sfd
             ∧ sectionsFragmentsIndexDir cwd c = Normal idx
             ∧ (generate net sched prettier_format fuel c (fresh f)).1 = Ok (names, texts)
             ∧ emits sd sfd idx (name names) texts ev).
  assert (writes_extend allowed (fresh f)
            (main_try net sched prettier_format cwd fuel args (fresh f)).2)
    as (added & Hwrites & Hadded).
  { unfold main_try. fold c.
    apply bind_writes; [rewrite lift_world; apply writes_extend_refl|].
    intros sd ? [Hsd ->]%lift_Ok.
    apply bind_writes; [rewrite lift_world; apply writes_extend_refl|].
    intros sfd ? [Hsfd ->]%lift_Ok.
    apply bind_writes; [rewrite lift_world; apply writes_extend_refl|].
    intros idx ? [Hidx ->]%lift_Ok.
    apply bind_writes; [apply writes_extend_refl|]. intros ? w1 _.
    apply bind_writes.
    { apply when_rel; [apply writes_extend_refl|]. intros _.
      apply mkdirSync_recursive_writes. left. exists sd. split; [done|by left]. }
    intros _ w2 _.
    apply bind_writes; [apply writes_extend_refl|]. intros ? w3 _.
    apply bind_writes.
    { apply when_rel; [apply writes_extend_refl|]. intros _.
      apply mkdirSync_recursive_writes. left. exists sfd. split; [done|by right]. }
    intros _ w4 _.
    apply bind_writes; [apply generate_writes|]. intros [names texts] w5 Hgen.
    eapply writes_extend_impl; [|apply emit_writes].
    intros ev' Hev'. right. exists sd, sfd, idx, names, texts. split_and!; try done.
    by rewrite (generate_value net sched prettier_format fuel c (fresh f) w4), Hgen. }
  intros Hev. rewrite (proj2 (run_fs net sched prettier_format cwd fuel args f)) in Hev.
  rewrite Hwrites in Hev. simpl in Hev.
  exact (proj1 (Forall_forall _ _) Hadded _ Hev).
Qed.

(** X6.  A run leaves every regular file that exists when it starts, other
    than the index file, with the content it has: each of the three files is
    written only where [fs.existsSync] finds nothing, and nothing else is
    written to. *)
Theorem run_keeps_existing_files (fuel : nat) (args : list string) (f : filesystem)
    (p content : string) :
  files f !! p = Some content →
  sectionsFragmentsIndexDir cwd (parse_args args default_config) ≠ Normal p →
  files (fs (run net sched prettier_format cwd fuel args f).2) !! p = Some content.
Proof.
  intros Hp Hindex. set (c := parse_args args default_config) in *.
  rewrite (proj1 (run_fs net sched prettier_format cwd fuel args f)).
  assert (files_kept (λ q, sectionsFragmentsIndexDir cwd c ≠ Normal q)
            (fresh f) (main_try net sched prettier_format cwd fuel args (fresh f)).2)
    as Hkept; [|by apply Hkept].
  unfold main_try. fold c.
  apply bind_files; [rewrite lift_world; apply files_kept_refl|].
  intros sd ? [Hsd ->]%lift_Ok.
  apply bind_files; [rewrite lift_world; apply files_kept_refl|].
  intros sfd ? [Hsfd ->]%lift_Ok.
  apply bind_files; [rewrite lift_world; apply files_kept_refl|].
  intros idx ? [Hidx ->]%lift_Ok.
  apply bind_files; [apply files_kept_refl|]. intros ? w1 _.
  apply bind_files.
  { apply when_rel; [apply files_kept_refl|]. intros _. apply mkdirSync_recursive_files. }
  intros _ w2 _.
  apply bind_files; [apply files_kept_refl|]. intros ? w3 _.
  apply bind_files.
  { apply when_rel; [apply files_kept_refl|]. intros _. apply mkdirSync_recursive_files. }
  intros _ w4 _.
  apply bind_files; [apply generate_files|]. intros generated w5 _.
  eapply files_kept_impl; [|apply emit_files].
  intros q Hq ->. by apply Hq.
Qed.

(** X7.  An index file that exists when the run starts is only ever added
    to, and by nothing but the export line: after the run it holds what it
    held, or what it held followed by the line [indexCode] of the derived
    name, and the latter only if it did not contain that line before. *)
Theorem index_file_only_appended (fuel : nat) (args : list string) (f : filesystem)
    (idx content : string) :
  sectionsFragmentsIndexDir cwd (parse_args args default_config) = Normal idx →
  files f !! idx = Some content →
  files (fs (run net sched prettier_format cwd fuel args f).2) !! idx = Some content
  ∨ ∃ names,
      processString (component (parse_args args default_config)) = Normal names
      ∧ Js.includes content (indexCode (name names)) = false
      ∧ files (fs (run net sched prettier_format cwd fuel args f).2) !! idx
        = Some (content +:+ indexCode (name names)).
Proof.
  intros Hindex Hcontent. set (c := parse_args args default_config) in *.
  rewrite (proj1 (run_fs net sched prettier_format cwd fuel args f)).
  set (Q := λ w' : world,
         files (fs w') !! idx = Some content
         ∨ ∃ names,
             processString (component c) = Normal names
             ∧ Js.includes content (indexCode (name names)) = false
             ∧ files (fs w') !! idx = Some (content +:+ indexCode (name names))).
  change (Q (main_try net sched prettier_format cwd fuel args (fresh f)).2).
  assert (∀ w', files (fs w') !! idx = Some content → Q w') as HQ by (by left).
  assert (files (fs (fresh f)) !! idx = Some content) as Hstart by done.
  revert Hstart. generalize (fresh f). intros w Hw.
  unfold main_try. fold c.
  apply (bind_post Q idx content); [done|done|rewrite lift_world; apply files_kept_refl|].
  intros sd ? [_ ->]%lift_Ok _.
  apply (bind_post Q idx content); [done|done|rewrite lift_world; apply files_kept_refl|].
  intros sfd ? [_ ->]%lift_Ok _.
  apply (bind_post Q idx content); [done|done|rewrite lift_world; apply files_kept_refl|].
  intros idx' ? [Hidx' ->]%lift_Ok _.
  assert (idx' = idx) as -> by congruence. clear Hidx'.
  apply (bind_post Q idx content); [done|done|apply files_kept_refl|].
  clear Hw. intros ? w1 _ Hw.
  apply (bind_post Q idx content); [done|done| |].
  { apply when_rel; [apply files_kept_refl|]. intros _. apply mkdirSync_recursive_files. }
  clear Hw. intros _ w2 _ Hw.
  apply (bind_post Q idx content); [done|done|apply files_kept_refl|].
  clear Hw. intros ? w3 _ Hw.
  apply (bind_post Q idx content); [done|done| |].
  { apply when_rel; [apply files_kept_refl|]. intros _. apply mkdirSync_recursive_files. }
  clear Hw. intros _ w4 _ Hw.
  apply (bind_post Q idx content); [done|done|apply generate_files|].
  clear Hw. intros [names texts] w5 Hgen Hw.
  apply generate_Ok in Hgen as [Hnames Hline]. simpl.
  unfold emit.
  apply (bind_post Q idx content); [done|done|rewrite lift_world; apply files_kept_refl|].
  intros P1 ? [_ ->]%lift_Ok _.
  apply (bind_post Q idx content); [done|done|rewrite lift_world; apply files_kept_refl|].
  intros P2 ? [_ ->]%lift_Ok _.
  apply (bind_post Q idx content); [done|done|rewrite lift_world; apply files_kept_refl|].
  intros P3 ? [_ ->]%lift_Ok _.
  apply (bind_post Q idx content); [done|done|apply files_kept_refl|].
  intros ? ? [-> ->]%existsSync_Ok _.
  apply (bind_post Q idx content); [done|done|apply guarded_append_files|].
  clear Hw. intros _ w6 _ Hw.
  apply (bind_post Q idx content); [done|done|apply files_kept_refl|].
  intros ? ? [-> ->]%existsSync_Ok _.
  apply (bind_post Q idx content); [done|done|apply guarded_append_files|].
  clear Hw. intros _ w7 _ Hw.
  apply (bind_post Q idx content); [done|done|apply files_kept_refl|].
  intros ? ? [-> ->]%existsSync_Ok _.
  apply (bind_post Q idx content); [done|done|apply guarded_append_files|].
  clear Hw. intros _ w8 _ Hw.
  apply (bind_post Q idx content); [done|done|apply files_kept_refl|].
  intros ? ? [-> ->]%existsSync_Ok _.
  rewrite (is_file_Some _ _ _ Hw), orb_true_r.
  apply (bind_post Q idx content); [done|done| |].
  { apply bind_files; [rewrite readFileSync_world; apply files_kept_refl|].
    intros ? ? _. apply files_kept_refl. }
  intros listed w9 Hread _.
  assert (listed = Js.includes content (barrelLine texts) ∧ w9 = w8) as [-> ->].
  { revert Hread. unfold mbind, io_bind, bind, readFileSync, ret. rewrite Hw.
    intros ?; by simplify_eq. }
  destruct (Js.includes content (barrelLine texts)) eqn:Hlisted; [by apply HQ|].
  unfold appendFileSync.
  destruct (is_dir (fs w8) idx); [by apply HQ|].
  destruct (negb _); [by apply HQ|].
  unfold Q. right. exists names. rewrite <- Hline. split_and!; [done..|].
  cbn [fs files snd]. by rewrite lookup_insert_eq, Hw.
Qed.

End RunChanges.

Lemma run_writes_accounted_witness :
  let c := parse_args site_args default_config in
  let ev := Mkdir (abs_path (site_segs ++ ["foo"] ++ sections_segs)) in
  creates_output_dir (abs_path site_segs) c ev
  ∨ ∃ sd sfd idx names texts,
      sectionsDir (abs_path site_segs) c = Normal sd
      ∧ sectionsFragmentsDir (abs_path site_segs) c = Normal sfd
      ∧ sectionsFragmentsIndexDir (abs_path site_segs) c = Normal idx
      ∧ (generate hero_net in_key_order verbatim 2 c (fresh no_entries)).1
        = Ok (names, texts)
      ∧ emits sd sfd idx (name names) texts ev.
Proof.
  apply (run_writes_accounted hero_net in_key_order verbatim (abs_path site_segs) 2
           site_args no_entries).
  vm_compute. apply list_elem_of_here.
Defined.

(** ** The Schema Resolver on arbitrary schemas *)

Module KeysFacts.

Lemma own_keys_Permutation props : own_keys props ≡ₚ props.*1.
Proof.
  unfold own_keys. generalize (props.*1). intros ks.
  rewrite merge_sort_Permutation.
  induction ks as [|k ks IH]; [done|]. simpl.
  destruct (array_index k) as [n|] eqn:Hk; simpl.
  - rewrite filter_cons_False by (by rewrite Hk). by rewrite IH.
  - rewrite filter_cons_True by done. by rewrite <- Permutation_middle, IH.
Qed.

Lemma elem_of_own_keys props field : field ∈ own_keys props ↔ field ∈ props.*1.
Proof. by rewrite own_keys_Permutation. Qed.

Lemma length_own_keys props : length (own_keys props) = length props.
Proof. by rewrite own_keys_Permutation, length_fmap. Qed.


End KeysFacts.

Section ResolverEdges.

Variable net : string → axios_result.
Variable sched : list string → list nat.
Variable config_url : jsval.

Local Abbreviation fetch := (fetchComponentFields net sched config_url).




(** X10.  A schema without a field of type [component] is resolved on the
    spot: [parseFields] fulfils without a single request, also when no
    nesting at all is followed. *)
Theorem flat_schema_resolves_without_requests (fuel : nat)
    (props : list (string * jsval)) :
  (∀ field, field ∈ props.*1 →
     ∃ type, get (lookup_prop field props) "type" = Normal type
             ∧ type ≠ JStr "component") →
  (∃ selections, (parseFields net sched config_url fuel (JObj props)).1 = Fulfilled selections)
  ∧ (parseFields net sched config_url fuel (JObj props)).2 = [].
Proof.
  intros Hflat. unfold parseFields, parseFields_with. simpl.
  assert (∃ selections,
            resolve_field config_url (fetch fuel) (JObj props) <$> own_keys props
            = (λ selection, (Fulfilled selection, [])) <$> selections)
    as [selections ->].
  { assert (Forall (λ field, field ∈ props.*1) (own_keys props)) as Hkeys.
    { apply Forall_forall. intros field. apply KeysFacts.elem_of_own_keys. }
    induction Hkeys as [|field keys Hfield _ [selections IH]]; [by exists []|].
    destruct (Hflat field Hfield) as (type & Htype & Hother).
    assert (∃ selection,
              resolve_field config_url (fetch fuel) (JObj props) field
              = (Fulfilled selection, [])) as [selection Hselection].
    { unfold resolve_field. simpl. rewrite Htype. simpl.
      destruct (classify type) eqn:Hkind; [by eexists| |by eexists].
      by apply classify_Component in Hkind. }
    exists (selection :: selections). by rewrite !fmap_cons, IH, Hselection. }
  rewrite <- !list_fmap_compose. split.
  - exists selections. apply PromiseFacts.Promise_all_fmap_Fulfilled.
  - by induction selections as [|selection selections IH].
Qed.

End ResolverEdges.



Lemma flat_schema_resolves_without_requests_witness :
  (∃ selections,
     (parseFields not_found_net in_key_order localhost 0 (JObj flat_attributes)).1
     = Fulfilled selections)
  ∧ (parseFields not_found_net in_key_order localhost 0 (JObj flat_attributes)).2 = [].
Proof.
  apply (flat_schema_resolves_without_requests not_found_net in_key_order localhost 0).
  intros field Hfield.
  apply elem_of_cons in Hfield as [->|Hfield]; [by exists (JStr "string")|].
  apply elem_of_cons in Hfield as [->|Hfield]; [by exists (JStr "media")|].
  apply elem_of_cons in Hfield as [->|Hfield]; [by exists JUndefined|].
  by apply elem_of_nil in Hfield.
Defined.

Lemma run_keeps_existing_files_witness :
  files (fs (run hero_net in_key_order verbatim (abs_path site_segs) 2 site_args
               site_in_use).2)
    !! abs_path (site_segs ++ ["foo"] ++ sections_segs ++ ["Hero.vue"])
  = Some "<template><h1>{{ data.title }}</h1></template>".
Proof.
  apply (run_keeps_existing_files hero_net in_key_order verbatim (abs_path site_segs) 2
           site_args site_in_use).
  - by vm_compute.
  - by vm_compute.
Defined.

Lemma index_file_only_appended_witness :
  let before := "export { Teaser } from './sections/teaser';" +:+ nl in
  let after :=
    files (fs (run hero_net in_key_order verbatim (abs_path site_segs) 2 site_args
                 site_in_use).2) !! abs_path (site_segs ++ ["foo"] ++ index_segs) in
  after = Some before
  ∨ ∃ names,
      processString (component (parse_args site_args default_config)) = Normal names
      ∧ Js.includes before (indexCode (name names)) = false
      ∧ after = Some (before +:+ indexCode (name names)).
Proof.
  apply (index_file_only_appended hero_net in_key_order verbatim (abs_path site_segs) 2
           site_args site_in_use).
  - by vm_compute.
  - by vm_compute.
Defined.

(** ** Runs that fail *)

Section FailedRuns.

Import FsFacts.

Variable net : string → axios_result.
Variable sched : list string → list nat.
Variable prettier_format : string → string → promise string.
Variable cwd : string.


Lemma join_strings l : ∃ p, Path.join (JStr <$> l) = Normal p.
Proof.
  unfold Path.join. rewrite PathFacts.validate_strings.
  unfold mbind, completion_bind, cbind. destruct (filter _ l); by eexists.
Qed.

(** With something at the paths of the two output directories, the body of
    the main function goes straight to the fetch. *)
Lemma main_try_existing fuel args f sd sfd :
  let c := parse_args args default_config in
  sectionsDir cwd c = Normal sd →
  sectionsFragmentsDir cwd c = Normal sfd →
  is_dir f sd || is_file f sd = true →
  is_dir f sfd || is_file f sfd = true →
  ∃ idx,
    main_try net sched prettier_format cwd fuel args (fresh f)
    = (generate net sched prettier_format fuel c ≫= λ generated,
         emit sd sfd idx (name generated.1) generated.2) (fresh f).
Proof.
  intros c Hsd Hsfd Hsd_exists Hsfd_exists.
  assert (∃ idx, sectionsFragmentsIndexDir cwd c = Normal idx) as [idx Hidx].
  { unfold sectionsFragmentsIndexDir. unfold sectionsDir in Hsd.
    destruct (dir c) as [| | | |d| |]; try done.
    apply (join_strings [cwd; d; "graphql"; "fragments"; "index.ts"]). }
  exists idx. unfold main_try. fold c. rewrite Hsd, Hsfd, Hidx.
  erewrite bind_Ok; [|apply lift_Normal].
  erewrite bind_Ok; [|apply lift_Normal].
  erewrite bind_Ok; [|apply lift_Normal].
  erewrite bind_Ok; [|apply existsSync_eq].
  change (fs (fresh f)) with f. rewrite Hsd_exists. simpl.
  erewrite bind_Ok; [|reflexivity].
  erewrite bind_Ok; [|apply existsSync_eq].
  change (fs (fresh f)) with f. rewrite Hsfd_exists. simpl.
  erewrite bind_Ok; [|reflexivity]. done.
Qed.

Lemma main_try_prepared fuel args f sd sfd :
  let c := parse_args args default_config in
  sectionsDir cwd c = Normal sd →
  sectionsFragmentsDir cwd c = Normal sfd →
  is_dir f sd = true →
  is_dir f sfd = true →
  ∃ idx,
    main_try net sched prettier_format cwd fuel args (fresh f)
    = (generate net sched prettier_format fuel c ≫= λ generated,
         emit sd sfd idx (name generated.1) generated.2) (fresh f).
Proof.
  intros c Hsd Hsfd Hsd_dir Hsfd_dir.
  apply main_try_existing; try done; by apply orb_true_intro; left.
Qed.

(** X11.  When the request for the schema fails, [fetchComponentFields]
    logs its diagnostic and resolves with [null], and the template then
    calls [join] on [null].  With the two output directories in place and an
    identifier that has a dot, the run therefore makes the one request, logs
    the diagnostic and the [TypeError], and changes nothing on the file
    system. *)
Theorem unreachable_instance_run (fuel : nat) (args : list string) (f : filesystem)
    (sd sfd : string) (error : js_error) (names : DerivedNames) :
  let c := parse_args args default_config in
  sectionsDir cwd c = Normal sd →
  sectionsFragmentsDir cwd c = Normal sfd →
  is_dir f sd = true →
  is_dir f sfd = true →
  net (component_url (url c) (component c)) = AxiosRejects error →
  processString (component c) = Normal names →
  run net sched prettier_format cwd (S fuel) args f
  = (Ok (),
     {| fs := f;
        events :=
          [HttpGet (component_url (url c) (component c));
           ConsoleError (Some (fetch_diagnostic (component c))) error;
           ConsoleError None
             (TypeError "Cannot read properties of null (reading 'join')")];
        writes := [] |}).
Proof.
  intros c Hsd Hsfd Hsd_dir Hsfd_dir Hnet Hnames.
  destruct (main_try_prepared (S fuel) args f sd sfd Hsd Hsfd Hsd_dir Hsfd_dir)
    as [idx Hmain].
  unfold run, main. fold (fresh f). rewrite Hmain. fold c.
  assert (generate net sched prettier_format (S fuel) c (fresh f)
          = (Err (TypeError "Cannot read properties of null (reading 'join')"),
             {| fs := f;
                events :=
                  [HttpGet (component_url (url c) (component c));
                   ConsoleError (Some (fetch_diagnostic (component c))) error];
                writes := [] |})) as Hgenerate.
  { unfold generate.
    erewrite bind_Ok.
    2:{ unfold await.
        rewrite (fetch_rejected_request net sched (url c) fuel (url c) (component c) error)
          by done.
        reflexivity. }
    rewrite Hnames. erewrite bind_Ok; [|apply lift_Normal].
    apply bind_Err. unfold render. by apply bind_Err. }
  by rewrite (bind_Err _ _ _ _ _ Hgenerate).
Qed.

(** X12.  The identifier is taken apart only after the schema has been
    fetched.  With the two output directories in place, a run whose
    identifier [processString] cannot take apart (no [-i] at all, or a name
    without a dot) still makes the requests of the fetch, and then logs the
    exception of [processString] and changes nothing on the file system. *)
Theorem invalid_identifier_run (fuel : nat) (args : list string) (f : filesystem)
    (sd sfd : string) (error : js_error) (attributes : fields_or_null)
    (trace : list event) :
  let c := parse_args args default_config in
  sectionsDir cwd c = Normal sd →
  sectionsFragmentsDir cwd c = Normal sfd →
  is_dir f sd = true →
  is_dir f sfd = true →
  processString (component c) = Throw error →
  fetchComponentFields net sched (url c) fuel (url c) (component c)
  = (Fulfilled attributes, trace) →
  run net sched prettier_format cwd fuel args f
  = (Ok (), {| fs := f; events := trace ++ [ConsoleError None error]; writes := [] |}).
Proof.
  intros c Hsd Hsfd Hsd_dir Hsfd_dir Hnames Hfetch.
  destruct (main_try_prepared fuel args f sd sfd Hsd Hsfd Hsd_dir Hsfd_dir)
    as [idx Hmain].
  unfold run, main. fold (fresh f). rewrite Hmain. fold c.
  assert (generate net sched prettier_format fuel c (fresh f)
          = (Err error, {| fs := f; events := trace; writes := [] |})) as Hgenerate.
  { unfold generate.
    erewrite bind_Ok; [|unfold await; rewrite Hfetch; reflexivity].
    rewrite Hnames. by apply bind_Err. }
  by rewrite (bind_Err _ _ _ _ _ Hgenerate).
Qed.

(** X13.  The three texts are formatted before the first file is written.
    With the two output directories in place, a schema that was fetched and
    an identifier that was taken apart, a formatter that rejects one of the
    three texts, whichever it is, makes the run log that rejection and write
    nothing, not even the files whose texts were formatted before. *)
Theorem formatter_rejection_run (fuel : nat) (args : list string) (f : filesystem)
    (sd sfd : string) (names : DerivedNames) (fields : list string)
    (trace : list event) (error : js_error) :
  let c := parse_args args default_config in
  let fragment :=
    prettier_format (gqlFragment (name names) (collection names) fields) "typescript" in
  let vue := prettier_format (componentCode (name names)) "vue" in
  let types := prettier_format (componentTypesCode (name names)) "typescript" in
  sectionsDir cwd c = Normal sd →
  sectionsFragmentsDir cwd c = Normal sfd →
  is_dir f sd = true →
  is_dir f sfd = true →
  fetchComponentFields net sched (url c) fuel (url c) (component c)
  = (Fulfilled (Some fields), trace) →
  processString (component c) = Normal names →
  fragment = Rejected error
  ∨ (is_fulfilled fragment = true ∧ vue = Rejected error)
  ∨ (is_fulfilled fragment = true ∧ is_fulfilled vue = true ∧ types = Rejected error) →
  run net sched prettier_format cwd fuel args f
  = (Ok (), {| fs := f; events := trace ++ [ConsoleError None error]; writes := [] |}).
Proof.
  intros c fragment vue types Hsd Hsfd Hsd_dir Hsfd_dir Hfetch Hnames Hformat.
  destruct (main_try_prepared fuel args f sd sfd Hsd Hsfd Hsd_dir Hsfd_dir)
    as [idx Hmain].
  unfold run, main. fold (fresh f). rewrite Hmain. fold c.
  assert (generate net sched prettier_format fuel c (fresh f)
          = (Err error, {| fs := f; events := trace; writes := [] |})) as Hgenerate.
  { unfold generate.
    erewrite bind_Ok; [|unfold await; rewrite Hfetch; reflexivity].
    rewrite Hnames. erewrite bind_Ok; [|apply lift_Normal].
    apply bind_Err. unfold render, formatCode.
    erewrite bind_Ok; [|reflexivity].
    unfold mbind, io_bind, bind, await. cbn [fst snd fs events writes].
    fold fragment vue types. rewrite !app_nil_r.
    destruct Hformat as [->|[[Hfragment ->]|(Hfragment & Hcomponent & ->)]].
    - done.
    - by destruct fragment.
    - destruct fragment; [|done..]. by destruct vue. }
  by rewrite (bind_Err _ _ _ _ _ Hgenerate).
Qed.

End FailedRuns.

Lemma unreachable_instance_run_witness :
  run not_found_net in_key_order verbatim (abs_path site_segs) 1 site_args site_in_use
  = (Ok (),
     {| fs := site_in_use;
        events :=
          [HttpGet (component_url localhost (JStr "sections.hero"));
           ConsoleError (Some (fetch_diagnostic (JStr "sections.hero")))
             (AxiosError "Request failed with status code 404");
           ConsoleError None
             (TypeError "Cannot read properties of null (reading 'join')")];
        writes := [] |}).
Proof.
  apply (unreachable_instance_run not_found_net in_key_order verbatim (abs_path site_segs)
           0 site_args site_in_use
           (abs_path (site_segs ++ ["foo"] ++ sections_segs))
           (abs_path (site_segs ++ ["foo"] ++ fragments_segs))
           (AxiosError "Request failed with status code 404")
           {| name := "Hero"; collection := "ComponentSectionsHero" |}).
  - by vm_compute.
  - by vm_compute.
  - by vm_compute.
  - by vm_compute.
  - reflexivity.
  - by vm_compute.
Defined.

Lemma invalid_identifier_run_witness :
  run hero_net in_key_order verbatim (abs_path site_segs) 2 ["--dir"; "foo"] site_in_use
  = (Ok (),
     {| fs := site_in_use;
        events :=
          [HttpGet (component_url localhost JNull);
           ConsoleError (Some (fetch_diagnostic JNull))
             (AxiosError "Request failed with status code 404")]
          ++ [ConsoleError None
                (TypeError "Cannot read properties of null (reading 'split')")];
        writes := [] |}).
Proof.
  apply (invalid_identifier_run hero_net in_key_order verbatim (abs_path site_segs) 2
           ["--dir"; "foo"] site_in_use
           (abs_path (site_segs ++ ["foo"] ++ sections_segs))
           (abs_path (site_segs ++ ["foo"] ++ fragments_segs))
           (TypeError "Cannot read properties of null (reading 'split')") None).
  - by vm_compute.
  - by vm_compute.
  - by vm_compute.
  - by vm_compute.
  - reflexivity.
  - by vm_compute.
Defined.

Lemma formatter_rejection_run_witness :
  run hero_net in_key_order without_vue_parser (abs_path site_segs) 2 site_args site_in_use
  = (Ok (),
     {| fs := site_in_use;
        events :=
          [HttpGet (component_url localhost (JStr "sections.hero"));
           HttpGet (component_url localhost (JStr "ns.card"))]
          ++ [ConsoleError None (PrettierError "Couldn't resolve parser vue")];
        writes := [] |}).
Proof.
  apply (formatter_rejection_run hero_net in_key_order without_vue_parser
           (abs_path site_segs) 2 site_args site_in_use
           (abs_path (site_segs ++ ["foo"] ++ sections_segs))
           (abs_path (site_segs ++ ["foo"] ++ fragments_segs))
           {| name := "Hero"; collection := "ComponentSectionsHero" |}
           ["title"; media_selection "image"; component_selection "hero" ["text"]]).
  - by vm_compute.
  - by vm_compute.
  - by vm_compute.
  - by vm_compute.
  - by vm_compute.
  - by vm_compute.
  - right; left. by vm_compute.
Defined.

(** ** A regular file where an output directory should be *)

Section FileInTheWay.

Import FsFacts PathFacts.

Local Arguments Path.ancestors : simpl never.
Local Arguments Path.dirname : simpl never.
Local Arguments abs_path : simpl never.

Variable net : string → axios_result.
Variable sched : list string → list nat.
Variable prettier_format : string → string → promise string.

(** X14.  [fs.existsSync] does not tell a file from a directory, and the
    files are written one after the other.  When a regular file stands at
    the path of [config.sectionsDir], the run does not try to create the
    directory; with the fragments directory in place and the schema fetched,
    the names derived and the texts formatted, it writes the fragment file,
    fails on the component file with [ENOTDIR], logs that, and ends with the
    fragment file written and the index file not touched. *)
Theorem file_in_place_of_sections_dir (cwd_segs dsegs : list string) (fuel : nat)
    (args : list string) (f : filesystem) (names : DerivedNames) (texts : artifacts) :
  let c := parse_args args default_config in
  let root := cwd_segs ++ dsegs in
  let sd := abs_path (root ++ sections_segs) in
  let sfd := abs_path (root ++ fragments_segs) in
  let fragmentFile := abs_path (root ++ fragments_segs ++ [Js.lowerFirst (name names) +:+ ".ts"]) in
  let componentFile := abs_path (root ++ sections_segs ++ [name names +:+ ".vue"]) in
  Forall normal_segment cwd_segs →
  Forall normal_segment dsegs →
  dir c = JStr (rel_path dsegs) →
  (generate net sched prettier_format fuel c (fresh f)).1 = Ok (names, texts) →
  Js.has_char Js.is_slash (name names) = false →
  is_file f sd = true →
  is_dir f sd = false →
  is_dir f sfd = true →
  is_dir f fragmentFile || is_file f fragmentFile = false →
  is_dir f componentFile || is_file f componentFile = false →
  run net sched prettier_format (abs_path cwd_segs) fuel args f
  = (Ok (),
     {| fs := {| dirs := dirs f;
                 files := <[fragmentFile := fragmentCode texts]> (files f) |};
        events :=
          events (generate net sched prettier_format fuel c (fresh f)).2
          ++ [ConsoleError None (SystemError "ENOTDIR" componentFile)];
        writes := [AppendFile fragmentFile (fragmentCode texts)] |}).
Proof.
  intros c root sd sfd P1 P2 Hcwd Hdsegs Hdir Hgenerate Hname Hfile Hnodir Hsfd
    [D1 E1]%orb_false_elim [D2 E2]%orb_false_elim.
  assert (Path.dirname P1 = sfd) as Hparent1.
  { unfold P1, sfd. rewrite !app_assoc. apply dirname_abs_snoc.
    - by apply (fragments_normal cwd_segs dsegs).
    - apply normal_file; [by rewrite has_char_slash_lowerFirst|done|simpl; lia]. }
  assert (Path.dirname P2 = sd) as Hparent2.
  { unfold P2, sd. rewrite !app_assoc. apply dirname_abs_snoc.
    - by apply (sections_normal cwd_segs dsegs).
    - apply normal_file; [done|done|simpl; lia]. }
  assert (P1 ≠ P2) as Hdiffer.
  { intros Heq. rewrite Heq, Hparent2 in Hparent1. rewrite Hparent1 in Hnodir. congruence. }
  destruct (main_try_existing net sched prettier_format (abs_path cwd_segs) fuel args f
              sd sfd) as [idx Hmain].
  { by apply sectionsDir_value. }
  { by apply sectionsFragmentsDir_value. }
  { by rewrite Hfile, orb_true_r. }
  { by rewrite Hsfd. }
  unfold run, main. fold (fresh f). rewrite Hmain. fold c.
  pose proof (generate_reads_only net sched prettier_format fuel c (fresh f)) as [Hfs Hwrites].
  destruct (generate net sched prettier_format fuel c (fresh f)) as [generated w1] eqn:Hrun.
  simpl in Hgenerate, Hfs, Hwrites. subst generated. destruct w1 as [f1 events1 writes1].
  simpl in Hfs, Hwrites. subst f1 writes1. cbn [snd events].
  assert (emit sd sfd idx (name names) texts {| fs := f; events := events1; writes := [] |}
          = (Err (SystemError "ENOTDIR" P2),
             {| fs := {| dirs := dirs f;
                         files := <[P1 := fragmentCode texts]> (files f) |};
                events := events1;
                writes := [AppendFile P1 (fragmentCode texts)] |})) as Hemit.
  { assert (fragmentFilePath sfd (name names) = Normal P1) as HP1.
    { unfold sfd, P1, root. by apply fragmentFilePath_value. }
    assert (componentFilePath sd (name names) = Normal P2) as HP2.
    { unfold sd, P2, root. by apply componentFilePath_value. }
    assert (∃ P3, componentTypesFilePath sd (name names) = Normal P3) as [P3 HP3].
    { apply (join_strings [sd; Js.lowerFirst (name names) +:+ ".types.ts"]). }
    unfold emit. rewrite HP1, HP2, HP3.
    do 3 (erewrite bind_Ok; [|apply lift_Normal]).
    erewrite bind_Ok; [|apply existsSync_eq]. cbn [fs].
    rewrite D1, E1. simpl negb. unfold when at 1.
    erewrite bind_Ok.
    2:{ apply appendFileSync_new; cbn [fs]; [done| |by apply is_file_None].
        by rewrite Hparent1. }
    erewrite bind_Ok; [|apply existsSync_eq]. cbn [fs].
    rewrite is_dir_mk, is_file_insert_ne, is_file_mk, D2, E2 by done.
    simpl negb. unfold when at 1.
    apply bind_Err. unfold appendFileSync. cbn [fs].
    rewrite !is_dir_mk, Hparent2, D2, Hnodir. simpl negb. cbv iota.
    assert (is_file {| dirs := dirs f; files := <[P1:=fragmentCode texts]> (files f) |} sd
            = true) as ->; [|done].
    destruct (decide (P1 = sd)) as [->|Hne].
    - eapply is_file_Some. cbn [files]. apply lookup_insert_eq.
    - by rewrite is_file_insert_ne, is_file_mk. }
  rewrite (bind_Ok _ _ _ _ _ Hrun). cbv beta. cbn [fst snd]. by rewrite Hemit.
Qed.

End FileInTheWay.

Lemma file_in_place_of_sections_dir_witness :
  let fragmentFile := abs_path (site_segs ++ ["foo"] ++ fragments_segs ++ ["hero.ts"]) in
  let componentFile := abs_path (site_segs ++ ["foo"] ++ sections_segs ++ ["Hero.vue"]) in
  run hero_net in_key_order verbatim (abs_path site_segs) 2 site_args
    site_with_file_in_the_way
  = (Ok (),
     {| fs := {| dirs := dirs site_with_file_in_the_way;
                 files := <[fragmentFile := fragmentCode hero_texts]>
                            (files site_with_file_in_the_way) |};
        events :=
          events (generate hero_net in_key_order verbatim 2
                    (parse_args site_args default_config)
                    (fresh site_with_file_in_the_way)).2
          ++ [ConsoleError None (SystemError "ENOTDIR" componentFile)];
        writes := [AppendFile fragmentFile (fragmentCode hero_texts)] |}).
Proof.
  apply (file_in_place_of_sections_dir hero_net in_key_order verbatim site_segs ["foo"] 2
           site_args site_with_file_in_the_way hero_names hero_texts).
  - repeat constructor; done.
  - repeat constructor; done.
  - reflexivity.
  - by vm_compute.
  - reflexivity.
  - by vm_compute.
  - by vm_compute.
  - by vm_compute.
  - by vm_compute.
  - by vm_compute.
Defined.
